(** * k8sbuilder: merge policies, field setters and the deferred ingress builder

    A shallow embedding of the Go package [k8sbuilder] (the policy tokens,
    [MergeK8s], the container builder, the pod template builder and the
    ingress builder) and the properties its specification states about it.

    Conventions of the embedding:
    - a Go slice [[]T] is an [option (list T)]: [None] is the [nil] slice,
      [Some l] a non-nil slice with elements [l];
    - a Go pointer [*T] that the code only compares with [nil] and
      dereferences is an [option T];
    - a Go [map[string]string] is an [option (gmap string string)];
    - a builder method mutates the builder and returns it: here it is a
      function from the builder state to a [result], which is either the
      new state or the panic the Go runtime raises. *)

From stdpp Require Import base option list strings gmap fin_maps.
From Stdlib Require Import ZArith.

Local Open Scope string_scope.
Local Open Scope Z_scope.
Local Open Scope list_scope.

(** ** Outcome of a call that may panic *)

Inductive result (A : Type) : Type :=
  | Ok (a : A)
  | Panic (msg : string).
Arguments Ok {A} a.
Arguments Panic {A} msg.

Global Instance result_ret : MRet result := λ A a, Ok a.

Global Instance result_bind : MBind result := λ A B k r,
  match r with
  | Ok a => k a
  | Panic msg => Panic msg
  end.

(** ** The merge policy tokens (common.go) *)

Definition WithOption : Type := string.

Definition Overwrite : WithOption := "overwrite".
Definition OverwriteIfDefaultValue : WithOption := "overwriteIfDefaultValue".
Definition Merge : WithOption := "merge".

(** [len(opts) == 0 || opts[0] == Overwrite] *)
Definition IsOverwrite (opts : list WithOption) : bool :=
  bool_decide (length opts = 0%nat) || bool_decide (opts !! 0%nat = Some Overwrite).

(** [len(opts) > 0 && opts[0] == OverwriteIfDefaultValue] *)
Definition IsOverwriteIfDefaultValue (opts : list WithOption) : bool :=
  bool_decide (0 < length opts)%nat
  && bool_decide (opts !! 0%nat = Some OverwriteIfDefaultValue).

(** [len(opts) > 0 && opts[0] == Merge] *)
Definition IsMerge (opts : list WithOption) : bool :=
  bool_decide (0 < length opts)%nat && bool_decide (opts !! 0%nat = Some Merge).

(** The three policies of the specification, and the policy a list of
    tokens selects, if any. *)
Inductive MergePolicy : Type := Replace | ReplaceIfUnset | DeepMerge.

Definition policy_of (opts : list WithOption) : option MergePolicy :=
  if IsOverwrite opts then Some Replace
  else if IsOverwriteIfDefaultValue opts then Some ReplaceIfUnset
  else if IsMerge opts then Some DeepMerge
  else None.

(** ** The Kubernetes API types the builders fill in

    Each type lives in a module of its name and keeps the Go field names.
    Only the fields that the modelled setters read or write are kept; [zero]
    is the Go zero value, which is what [reflect.Value.IsZero] compares
    with. *)

Module LocalObjectReference.
Record t : Type := mk { Name : string }.
Global Instance eq_dec : EqDecision t.
Proof. solve_decision. Defined.
Definition zero : t := mk "".
End LocalObjectReference.

Module EnvVar.
Record t : Type := mk { Name : string; Value : string }.
Global Instance eq_dec : EqDecision t.
Proof. solve_decision. Defined.
Definition zero : t := mk "" "".
End EnvVar.

Module EnvFromSource.
Record t : Type := mk {
  Prefix : string;
  ConfigMapRef : option LocalObjectReference.t;
  SecretRef : option LocalObjectReference.t }.
Global Instance eq_dec : EqDecision t.
Proof. solve_decision. Defined.
Definition zero : t := mk "" None None.
End EnvFromSource.

Module ContainerPort.
Record t : Type := mk {
  Name : string;
  HostPort : Z;
  ContainerPort : Z;
  Protocol : string;
  HostIP : string }.
Global Instance eq_dec : EqDecision t.
Proof. solve_decision. Defined.
Definition zero : t := mk "" 0 0 "" "".
End ContainerPort.

Module VolumeMount.
Record t : Type := mk {
  Name : string;
  ReadOnly : bool;
  MountPath : string;
  SubPath : string }.
Global Instance eq_dec : EqDecision t.
Proof. solve_decision. Defined.
Definition zero : t := mk "" false "" "".
End VolumeMount.

Module ResourceRequirements.
Record t : Type := mk {
  Limits : option (gmap string string);
  Requests : option (gmap string string) }.
Global Instance eq_dec : EqDecision t.
Proof. solve_decision. Defined.
Definition zero : t := mk None None.
End ResourceRequirements.

Module SecurityContext.
Record t : Type := mk {
  Privileged : option bool;
  RunAsUser : option Z;
  RunAsNonRoot : option bool;
  ReadOnlyRootFilesystem : option bool }.
Global Instance eq_dec : EqDecision t.
Proof. solve_decision. Defined.
Definition zero : t := mk None None None None.
End SecurityContext.

Module Container.
Record t : Type := mk {
  Name : string;
  Image : string;
  ImagePullPolicy : string;
  Env : option (list EnvVar.t);
  EnvFrom : option (list EnvFromSource.t);
  Ports : option (list ContainerPort.t);
  VolumeMounts : option (list VolumeMount.t);
  Resources : ResourceRequirements.t;
  SecurityContext : option SecurityContext.t }.
Global Instance eq_dec : EqDecision t.
Proof. solve_decision. Defined.
Definition zero : t :=
  mk "" "" "" None None None None ResourceRequirements.zero None.

(** Field assignments [c.F = v]. *)
Definition set_Image (v : string) (c : t) : t :=
  mk (Name c) v (ImagePullPolicy c) (Env c) (EnvFrom c) (Ports c)
     (VolumeMounts c) (Resources c) (SecurityContext c).
Definition set_ImagePullPolicy (v : string) (c : t) : t :=
  mk (Name c) (Image c) v (Env c) (EnvFrom c) (Ports c)
     (VolumeMounts c) (Resources c) (SecurityContext c).
Definition set_Env (v : option (list EnvVar.t)) (c : t) : t :=
  mk (Name c) (Image c) (ImagePullPolicy c) v (EnvFrom c) (Ports c)
     (VolumeMounts c) (Resources c) (SecurityContext c).
Definition set_EnvFrom (v : option (list EnvFromSource.t)) (c : t) : t :=
  mk (Name c) (Image c) (ImagePullPolicy c) (Env c) v (Ports c)
     (VolumeMounts c) (Resources c) (SecurityContext c).
Definition set_Ports (v : option (list ContainerPort.t)) (c : t) : t :=
  mk (Name c) (Image c) (ImagePullPolicy c) (Env c) (EnvFrom c) v
     (VolumeMounts c) (Resources c) (SecurityContext c).
Definition set_VolumeMounts (v : option (list VolumeMount.t)) (c : t) : t :=
  mk (Name c) (Image c) (ImagePullPolicy c) (Env c) (EnvFrom c) (Ports c)
     v (Resources c) (SecurityContext c).
Definition set_Resources (v : ResourceRequirements.t) (c : t) : t :=
  mk (Name c) (Image c) (ImagePullPolicy c) (Env c) (EnvFrom c) (Ports c)
     (VolumeMounts c) v (SecurityContext c).
Definition set_SecurityContext (v : option SecurityContext.t) (c : t) : t :=
  mk (Name c) (Image c) (ImagePullPolicy c) (Env c) (EnvFrom c) (Ports c)
     (VolumeMounts c) (Resources c) v.
End Container.

Module PodSpec.
Record t : Type := mk {
  InitContainers : option (list Container.t);
  Containers : option (list Container.t);
  TerminationGracePeriodSeconds : option Z;
  NodeSelector : option (gmap string string);
  ImagePullSecrets : option (list LocalObjectReference.t) }.
Definition zero : t := mk None None None None None.
Definition set_InitContainers (v : option (list Container.t)) (s : t) : t :=
  mk v (Containers s) (TerminationGracePeriodSeconds s) (NodeSelector s)
     (ImagePullSecrets s).
Definition set_Containers (v : option (list Container.t)) (s : t) : t :=
  mk (InitContainers s) v (TerminationGracePeriodSeconds s) (NodeSelector s)
     (ImagePullSecrets s).
Definition set_TerminationGracePeriodSeconds (v : option Z) (s : t) : t :=
  mk (InitContainers s) (Containers s) v (NodeSelector s) (ImagePullSecrets s).
Definition set_NodeSelector (v : option (gmap string string)) (s : t) : t :=
  mk (InitContainers s) (Containers s) (TerminationGracePeriodSeconds s) v
     (ImagePullSecrets s).
Definition set_ImagePullSecrets (v : option (list LocalObjectReference.t))
    (s : t) : t :=
  mk (InitContainers s) (Containers s) (TerminationGracePeriodSeconds s)
     (NodeSelector s) v.
End PodSpec.

Module PodTemplateSpec.
Record t : Type := mk {
  Labels : option (gmap string string);
  Annotations : option (gmap string string);
  Spec : PodSpec.t }.
Definition zero : t := mk None None PodSpec.zero.
Definition set_Labels (v : option (gmap string string)) (p : t) : t :=
  mk v (Annotations p) (Spec p).
Definition set_Annotations (v : option (gmap string string)) (p : t) : t :=
  mk (Labels p) v (Spec p).
Definition set_Spec (v : PodSpec.t) (p : t) : t :=
  mk (Labels p) (Annotations p) v.
End PodTemplateSpec.

Module IngressSpec.
Record t : Type := mk { IngressClassName : option string }.
Definition zero : t := mk None.
End IngressSpec.

Module Ingress.
Record t : Type := mk {
  Name : string;
  Namespace : string;
  Labels : option (gmap string string);
  Annotations : option (gmap string string);
  Spec : IngressSpec.t }.
Definition zero : t := mk "" "" None None IngressSpec.zero.
Definition set_Name (v : string) (i : t) : t :=
  mk v (Namespace i) (Labels i) (Annotations i) (Spec i).
Definition set_Namespace (v : string) (i : t) : t :=
  mk (Name i) v (Labels i) (Annotations i) (Spec i).
Definition set_Labels (v : option (gmap string string)) (i : t) : t :=
  mk (Name i) (Namespace i) v (Annotations i) (Spec i).
Definition set_Annotations (v : option (gmap string string)) (i : t) : t :=
  mk (Name i) (Namespace i) (Labels i) v (Spec i).
End Ingress.

(** ** The library calls the builders rely on *)

(** The Go statement [for _, x := range xs { s = body(s, x) }], where the
    body may panic. *)
Fixpoint range_loop {A S : Type} (body : S → A → result S)
    (xs : list A) (s : S) : result S :=
  match xs with
  | [] => Ok s
  | x :: xs' => s' ← body s x; range_loop body xs' s'
  end.

(** [tmp := make([]T, len(xs)); copy(tmp, xs)]: a fresh, non-nil slice with
    the elements of [xs], also when [xs] is nil. *)
Definition make_copy {A : Type} (xs : option (list A)) : option (list A) :=
  Some (default [] xs).

(** [var tmp []T; if xs != nil { tmp = make([]T, len(xs)); copy(tmp, xs) }]:
    nil stays nil. *)
Definition copy_unless_nil {A : Type} (xs : option (list A)) : option (list A) :=
  match xs with
  | None => None
  | Some l => Some l
  end.

(** [for ... range s] and [append(s, x)] on a possibly nil slice. *)
Definition elements {A : Type} (s : option (list A)) : list A := default [] s.

Definition append {A : Type} (s : option (list A)) (x : A) : option (list A) :=
  Some (elements s ++ [x]).

(** [s[index]] and [s[index] = x]: the Go runtime panics out of range. *)
Definition index_panic : string := "runtime error: index out of range".

Definition slice_get {A : Type} (s : option (list A)) (index : Z) : result A :=
  if bool_decide (index < 0) then Panic index_panic
  else match elements s !! Z.to_nat index with
       | Some x => Ok x
       | None => Panic index_panic
       end.

Definition slice_set {A : Type} (s : option (list A)) (index : Z) (x : A)
    : result (option (list A)) :=
  if bool_decide (0 ≤ index < Z.of_nat (length (elements s)))
  then Ok (Some (<[Z.to_nat index := x]> (elements s)))
  else Panic index_panic.

(** [funk.IndexOf(s, predicate)]: the index of the first element the
    predicate accepts, or -1 (go-funk from v0.8 on, where IndexOf and
    Contains take a predicate in place of a value). *)
Fixpoint IndexOf_from {A : Type} (i : Z) (pred : A → bool) (l : list A) : Z :=
  match l with
  | [] => -1
  | x :: l' => if pred x then i else IndexOf_from (i + 1) pred l'
  end.

Definition IndexOf {A : Type} (s : option (list A)) (pred : A → bool) : Z :=
  IndexOf_from 0 pred (elements s).

(** [funk.Contains(s, predicate)] and [funk.Contains(s, value)]; the latter
    compares with [reflect.DeepEqual], which is equality of the modelled
    values. *)
Definition ContainsPred {A : Type} (s : option (list A)) (pred : A → bool) : bool :=
  existsb pred (elements s).

Definition Contains {A : Type} `{EqDecision A} (s : option (list A)) (x : A) : bool :=
  bool_decide (x ∈ elements s).

(** [reflect.ValueOf(x).Elem()] panics unless [x] is a pointer or an
    interface; the setters call it on slices and maps. *)
Definition Elem_on_slice : string := "reflect: call of reflect.Value.Elem on slice Value".
Definition Elem_on_map : string := "reflect: call of reflect.Value.Elem on map Value".

(** [reflect.Value.IsZero] on a struct value. *)
Definition IsZero {A : Type} `{EqDecision A} (zero x : A) : bool :=
  bool_decide (x = zero).

(** [mergo.Merge(&dst, src)] on two non-nil [map[string]string], called
    without [mergo.WithOverride]: a key of [src] is written into [dst] when
    [dst] has no such key or holds the empty string under it; any other
    entry of [dst] is kept. It returns no error on maps of strings. *)
Definition mergo_entry (d s : option string) : option string :=
  match d, s with
  | Some v, Some w => if bool_decide (v = "") then Some w else Some v
  | Some v, None => Some v
  | None, _ => s
  end.

Definition mergo_Merge (dst src : gmap string string) : gmap string string :=
  merge mergo_entry dst src.

(** [MergeK8s(dst, src, new)].  [dst] is a non-nil pointer at every
    call site, so the first test never fires; the model takes the value
    [dst] points to and returns the value it points to afterwards together
    with the returned error.  The JSON round trip with
    [strategicpatch.CreateTwoWayMergePatch] and
    [strategicpatch.StrategicMergePatch] is the method of the class: it
    receives the contents of [dst] and [new] ([None] when [new] is a nil
    pointer, which marshals to [null]) and yields an error message or the
    value unmarshalled into [dst]. *)
Class StrategicMerge (T : Type) : Type :=
  strategic_merge : T → option T → string + T.

Definition MergeK8s {T : Type} `{StrategicMerge T}
    (dst : T) (src new : option T) : T * option string :=
  match src with
  | None => (dst, Some "src can't be null")
  | Some src_value =>
      let dst := match new with None => src_value | Some _ => dst end in
      match strategic_merge dst new with
      | inl err => (dst, Some err)
      | inr expected => (expected, None)
      end
  end.

(** [a && b] where evaluating [b] may panic: [b] is not evaluated when [a]
    is false. *)
Definition and_then (a : bool) (b : result bool) : result bool :=
  if a then b else Ok false.

Definition nil_dereference : string :=
  "runtime error: invalid memory address or nil pointer dereference".

(** [if err != nil { panic(err) }] after a call to [MergeK8s]. *)
Definition or_panic {T : Type} (r : T * option string) : result T :=
  match r with
  | (v, None) => Ok v
  | (_, Some err) => Panic err
  end.

(** ** The container builder

    [h.container] is never nil: [NewContainerBuilder] allocates it and
    [WithContainer] ignores a nil argument. *)

Record ContainerBuilderDefault : Type := mkContainerBuilder {
  container : Container.t }.

Definition NewContainerBuilder : ContainerBuilderDefault :=
  mkContainerBuilder Container.zero.

Definition update (f : Container.t → Container.t) (h : ContainerBuilderDefault)
    : ContainerBuilderDefault :=
  mkContainerBuilder (f (container h)).

(** The body of the merge loops: [funk.Contains] then [append], and
    [funk.IndexOf] then [append] or assignment at the index found. *)
Definition append_if_absent {A : Type} `{EqDecision A}
    (dst : option (list A)) (x : A) : option (list A) :=
  if negb (Contains dst x) then append dst x else dst.

Definition put_by_index {A : Type} (same : A → A → bool)
    (dst : option (list A)) (x : A) : result (option (list A)) :=
  let index := IndexOf dst (same x) in
  if bool_decide (index = -1) then Ok (append dst x)
  else slice_set dst index x.

Definition same_port (port o : ContainerPort.t) : bool :=
  bool_decide (ContainerPort.ContainerPort port = ContainerPort.ContainerPort o).

Definition same_mount (volumeMount o : VolumeMount.t) : bool :=
  bool_decide (VolumeMount.MountPath volumeMount = VolumeMount.MountPath o)
  && bool_decide (VolumeMount.SubPath volumeMount = VolumeMount.SubPath o).

Definition WithEnvFrom (envFroms : option (list EnvFromSource.t))
    (opts : list WithOption) (h : ContainerBuilderDefault)
    : result ContainerBuilderDefault :=
  let tmpEnvFrom := make_copy envFroms in
  match Container.EnvFrom (container h) with
  | None => Ok (update (Container.set_EnvFrom tmpEnvFrom) h)
  | Some _ =>
      if IsOverwrite opts then Ok (update (Container.set_EnvFrom tmpEnvFrom) h)
      else
        zero ← and_then (IsOverwriteIfDefaultValue opts) (Panic Elem_on_slice);
        if zero : bool then Ok (update (Container.set_EnvFrom tmpEnvFrom) h)
        else if IsMerge opts then
          Ok (update (λ c, Container.set_EnvFrom
                (foldl append_if_absent (Container.EnvFrom c) (elements tmpEnvFrom)) c) h)
        else Ok h
  end.

Definition WithEnv (envs : option (list EnvVar.t))
    (opts : list WithOption) (h : ContainerBuilderDefault)
    : result ContainerBuilderDefault :=
  let tmpEnvs := make_copy envs in
  match Container.Env (container h) with
  | None => Ok (update (Container.set_Env tmpEnvs) h)
  | Some _ =>
      if IsOverwrite opts then Ok (update (Container.set_Env tmpEnvs) h)
      else
        zero ← and_then (IsOverwriteIfDefaultValue opts) (Panic Elem_on_slice);
        if zero : bool then Ok (update (Container.set_Env tmpEnvs) h)
        else if IsMerge opts then
          Ok (update (λ c, Container.set_Env
                (foldl append_if_absent (Container.Env c) (elements tmpEnvs)) c) h)
        else Ok h
  end.

Definition WithImage (image : string) (opts : list WithOption)
    (h : ContainerBuilderDefault) : ContainerBuilderDefault :=
  if IsOverwrite opts || IsMerge opts
     || bool_decide (Container.Image (container h) = "")
  then update (Container.set_Image image) h
  else h.

Definition WithImagePullPolicy (pullPolicy : string) (opts : list WithOption)
    (h : ContainerBuilderDefault) : ContainerBuilderDefault :=
  if IsOverwrite opts || IsMerge opts
     || bool_decide (Container.ImagePullPolicy (container h) = "")
  then update (Container.set_ImagePullPolicy pullPolicy) h
  else h.

Definition WithPort (ports : option (list ContainerPort.t))
    (opts : list WithOption) (h : ContainerBuilderDefault)
    : result ContainerBuilderDefault :=
  let tmpPorts := make_copy ports in
  match Container.Ports (container h) with
  | None => Ok (update (Container.set_Ports tmpPorts) h)
  | Some _ =>
      if IsOverwrite opts then Ok (update (Container.set_Ports tmpPorts) h)
      else
        zero ← and_then (IsOverwriteIfDefaultValue opts) (Panic Elem_on_slice);
        if zero : bool then Ok (update (Container.set_Ports tmpPorts) h)
        else if IsMerge opts then
          merged ← range_loop (put_by_index same_port) (elements tmpPorts)
                     (Container.Ports (container h));
          Ok (update (Container.set_Ports merged) h)
        else Ok h
  end.

Definition WithVolumeMount (volumeMounts : option (list VolumeMount.t))
    (opts : list WithOption) (h : ContainerBuilderDefault)
    : result ContainerBuilderDefault :=
  let tmpVolumeMount := make_copy volumeMounts in
  match Container.VolumeMounts (container h) with
  | None => Ok (update (Container.set_VolumeMounts tmpVolumeMount) h)
  | Some _ =>
      if IsOverwrite opts
      then Ok (update (Container.set_VolumeMounts tmpVolumeMount) h)
      else
        zero ← and_then (IsOverwriteIfDefaultValue opts) (Panic Elem_on_slice);
        if zero : bool
        then Ok (update (Container.set_VolumeMounts tmpVolumeMount) h)
        else if IsMerge opts then
          merged ← range_loop (put_by_index same_mount) (elements tmpVolumeMount)
                     (Container.VolumeMounts (container h));
          Ok (update (Container.set_VolumeMounts merged) h)
        else Ok h
  end.

Section container_builder.
Context `{!StrategicMerge ResourceRequirements.t}.
Context `{!StrategicMerge SecurityContext.t}.
Context `{!StrategicMerge Container.t}.

(** The version with the guard on a nil argument. *)
Definition WithResource (resources : option ResourceRequirements.t)
    (opts : list WithOption) (h : ContainerBuilderDefault)
    : result ContainerBuilderDefault :=
  match resources with
  | None => Ok h
  | Some new =>
      if IsOverwrite opts then Ok (update (Container.set_Resources new) h)
      else if IsOverwriteIfDefaultValue opts
              && IsZero ResourceRequirements.zero (Container.Resources (container h))
      then Ok (update (Container.set_Resources new) h)
      else if IsMerge opts then
        let current := Container.Resources (container h) in
        merged ← or_panic (MergeK8s current (Some current) resources);
        Ok (update (Container.set_Resources merged) h)
      else Ok h
  end.

Definition WithSecurityContext (sc : option SecurityContext.t)
    (opts : list WithOption) (h : ContainerBuilderDefault)
    : result ContainerBuilderDefault :=
  match Container.SecurityContext (container h) with
  | None => Ok (update (Container.set_SecurityContext sc) h)
  | Some current =>
      if IsOverwrite opts then Ok (update (Container.set_SecurityContext sc) h)
      else if IsOverwriteIfDefaultValue opts && IsZero SecurityContext.zero current
      then Ok (update (Container.set_SecurityContext sc) h)
      else if IsMerge opts then
        merged ← or_panic (MergeK8s current (Some current) sc);
        Ok (update (Container.set_SecurityContext (Some merged)) h)
      else Ok h
  end.

Definition WithContainer (new : option Container.t)
    (opts : list WithOption) (h : ContainerBuilderDefault)
    : result ContainerBuilderDefault :=
  match new with
  | None => Ok h
  | Some c =>
      if IsOverwrite opts then Ok (mkContainerBuilder c)
      else if IsOverwriteIfDefaultValue opts && IsZero Container.zero (container h)
      then Ok (mkContainerBuilder c)
      else if IsMerge opts then
        let orgContainer := container h in
        merged ← or_panic (MergeK8s (container h) (Some (container h)) new);
        h ← WithEnv (Container.Env orgContainer) [] (mkContainerBuilder merged);
        h ← WithEnv (Container.Env c) [Merge] h;
        h ← WithEnvFrom (Container.EnvFrom orgContainer) [] h;
        h ← WithEnvFrom (Container.EnvFrom c) [Merge] h;
        h ← WithPort (Container.Ports orgContainer) [] h;
        h ← WithPort (Container.Ports c) [Merge] h;
        h ← WithVolumeMount (Container.VolumeMounts orgContainer) [] h;
        WithVolumeMount (Container.VolumeMounts c) [Merge] h
      else Ok h
  end.

End container_builder.

(** src/container.go holds an earlier [WithResource], without the guard:
    it dereferences [resources] at once. *)
Module ContainerGo.
Section with_resource.
Context `{!StrategicMerge ResourceRequirements.t}.

Definition WithResource (resources : option ResourceRequirements.t)
    (opts : list WithOption) (h : ContainerBuilderDefault)
    : result ContainerBuilderDefault :=
  let dereference : result ResourceRequirements.t :=
    match resources with
    | Some new => Ok new
    | None => Panic nil_dereference
    end in
  if IsOverwrite opts then
    new ← dereference; Ok (update (Container.set_Resources new) h)
  else if IsOverwriteIfDefaultValue opts
          && IsZero ResourceRequirements.zero (Container.Resources (container h))
  then new ← dereference; Ok (update (Container.set_Resources new) h)
  else if IsMerge opts then
    let current := Container.Resources (container h) in
    merged ← or_panic (MergeK8s current (Some current) resources);
    Ok (update (Container.set_Resources merged) h)
  else Ok h.

End with_resource.
End ContainerGo.

(** ** The pod template builder *)

Record PodTemplateBuilderDefault : Type := mkPodTemplateBuilder {
  podTemplate : PodTemplateSpec.t }.

Definition NewPodTemplateBuilder : PodTemplateBuilderDefault :=
  mkPodTemplateBuilder PodTemplateSpec.zero.

Definition update_template (f : PodTemplateSpec.t → PodTemplateSpec.t)
    (h : PodTemplateBuilderDefault) : PodTemplateBuilderDefault :=
  mkPodTemplateBuilder (f (podTemplate h)).

Definition update_spec (f : PodSpec.t → PodSpec.t)
    (h : PodTemplateBuilderDefault) : PodTemplateBuilderDefault :=
  update_template (λ p, PodTemplateSpec.set_Spec (f (PodTemplateSpec.Spec p)) p) h.

Definition spec (h : PodTemplateBuilderDefault) : PodSpec.t :=
  PodTemplateSpec.Spec (podTemplate h).

(** The three map setters have one body; [get] and [set] name the field. *)
Definition with_string_map
    (get : PodTemplateBuilderDefault → option (gmap string string))
    (set : option (gmap string string) → PodTemplateBuilderDefault
           → PodTemplateBuilderDefault)
    (new : option (gmap string string)) (opts : list WithOption)
    (h : PodTemplateBuilderDefault) : result PodTemplateBuilderDefault :=
  match get h with
  | None => Ok (set new h)
  | Some dst =>
      if IsOverwrite opts then Ok (set new h)
      else
        zero ← and_then (IsOverwriteIfDefaultValue opts) (Panic Elem_on_map);
        if zero : bool then Ok (set new h)
        else if IsMerge opts then
          match new with
          | Some src => Ok (set (Some (mergo_Merge dst src)) h)
          | None => Ok h
          end
        else Ok h
  end.

Definition WithLabels :=
  with_string_map (λ h, PodTemplateSpec.Labels (podTemplate h))
    (λ v, update_template (PodTemplateSpec.set_Labels v)).

Definition WithAnnotations :=
  with_string_map (λ h, PodTemplateSpec.Annotations (podTemplate h))
    (λ v, update_template (PodTemplateSpec.set_Annotations v)).

Definition WithNodeSelector :=
  with_string_map (λ h, PodSpec.NodeSelector (spec h))
    (λ v, update_spec (PodSpec.set_NodeSelector v)).

(** [pointer.Int64(nb)] is a fresh non-nil pointer; the field is unset when
    it is nil. *)
Definition WithTerminationGracePeriodSeconds (nb : Z) (opts : list WithOption)
    (h : PodTemplateBuilderDefault) : PodTemplateBuilderDefault :=
  if IsOverwrite opts || IsMerge opts
     || bool_decide (PodSpec.TerminationGracePeriodSeconds (spec h) = None)
  then update_spec (PodSpec.set_TerminationGracePeriodSeconds (Some nb)) h
  else h.

Definition same_reference (ref o : LocalObjectReference.t) : bool :=
  bool_decide (LocalObjectReference.Name ref = LocalObjectReference.Name o).

Definition append_if_no_reference (dst : option (list LocalObjectReference.t))
    (ref : LocalObjectReference.t) : option (list LocalObjectReference.t) :=
  if negb (ContainsPred dst (same_reference ref)) then append dst ref else dst.

(** [WithImagePullSecrets] declares [var tmpIps []LocalObjectReference] and
    then, inside [if ips != nil { ... }], writes [tmpIps := make(...)]: the
    short declaration makes a second variable, local to the block, that
    receives the copy.  The [tmpIps] used below the block is the outer one,
    which is still nil. *)
Definition WithImagePullSecrets (ips : option (list LocalObjectReference.t))
    (opts : list WithOption) (h : PodTemplateBuilderDefault)
    : result PodTemplateBuilderDefault :=
  let tmpIps : option (list LocalObjectReference.t) := None in
  let inner_tmpIps := copy_unless_nil ips in
  match PodSpec.ImagePullSecrets (spec h) with
  | None => Ok (update_spec (PodSpec.set_ImagePullSecrets tmpIps) h)
  | Some _ =>
      if IsOverwrite opts
      then Ok (update_spec (PodSpec.set_ImagePullSecrets tmpIps) h)
      else
        zero ← and_then (IsOverwriteIfDefaultValue opts) (Panic Elem_on_slice);
        if zero : bool
        then Ok (update_spec (PodSpec.set_ImagePullSecrets tmpIps) h)
        else if IsMerge opts then
          Ok (update_spec (λ s, PodSpec.set_ImagePullSecrets
                (foldl append_if_no_reference (PodSpec.ImagePullSecrets s)
                   (elements tmpIps)) s) h)
        else Ok h
  end.

Definition same_name (c o : Container.t) : bool :=
  bool_decide (Container.Name c = Container.Name o).

Section pod_template_builder.
Context `{!StrategicMerge Container.t}.

(** [*NewContainerBuilder().WithContainer(&current).WithContainer(&new, Merge).Container()] *)
Definition merge_container (current new : Container.t) : result Container.t :=
  b ← WithContainer (Some current) [] NewContainerBuilder;
  b ← WithContainer (Some new) [Merge] b;
  Ok (container b).

Definition WithInitContainers_body (s : PodSpec.t) (c : Container.t)
    : result PodSpec.t :=
  let index := IndexOf (PodSpec.InitContainers s) (same_name c) in
  if bool_decide (index = -1)
  then Ok (PodSpec.set_InitContainers (append (PodSpec.InitContainers s) c) s)
  else
    current ← slice_get (PodSpec.InitContainers s) index;
    merged ← merge_container current c;
    updated ← slice_set (PodSpec.InitContainers s) index merged;
    Ok (PodSpec.set_InitContainers updated s).

Definition WithInitContainers (containers : option (list Container.t))
    (opts : list WithOption) (h : PodTemplateBuilderDefault)
    : result PodTemplateBuilderDefault :=
  let tmpContainers := copy_unless_nil containers in
  match PodSpec.InitContainers (spec h) with
  | None => Ok (update_spec (PodSpec.set_InitContainers tmpContainers) h)
  | Some _ =>
      if IsOverwrite opts
      then Ok (update_spec (PodSpec.set_InitContainers tmpContainers) h)
      else
        zero ← and_then (IsOverwriteIfDefaultValue opts) (Panic Elem_on_slice);
        if zero : bool
        then Ok (update_spec (PodSpec.set_InitContainers tmpContainers) h)
        else if IsMerge opts then
          s ← range_loop WithInitContainers_body (elements tmpContainers) (spec h);
          Ok (update_spec (λ _, s) h)
        else Ok h
  end.

(** The loop of [WithContainers] looks the name up in
    [h.podTemplate.Spec.InitContainers] and then reads and writes
    [h.podTemplate.Spec.Containers] at the index found there. *)
Definition WithContainers_body (s : PodSpec.t) (c : Container.t)
    : result PodSpec.t :=
  let index := IndexOf (PodSpec.InitContainers s) (same_name c) in
  if bool_decide (index = -1)
  then Ok (PodSpec.set_Containers (append (PodSpec.Containers s) c) s)
  else
    current ← slice_get (PodSpec.Containers s) index;
    merged ← merge_container current c;
    updated ← slice_set (PodSpec.Containers s) index merged;
    Ok (PodSpec.set_Containers updated s).

Definition WithContainers (containers : option (list Container.t))
    (opts : list WithOption) (h : PodTemplateBuilderDefault)
    : result PodTemplateBuilderDefault :=
  let tmpContainers := copy_unless_nil containers in
  match PodSpec.Containers (spec h) with
  | None => Ok (update_spec (PodSpec.set_Containers tmpContainers) h)
  | Some _ =>
      if IsOverwrite opts
      then Ok (update_spec (PodSpec.set_Containers tmpContainers) h)
      else
        zero ← and_then (IsOverwriteIfDefaultValue opts) (Panic Elem_on_slice);
        if zero : bool
        then Ok (update_spec (PodSpec.set_Containers tmpContainers) h)
        else if IsMerge opts then
          s ← range_loop WithContainers_body (elements tmpContainers) (spec h);
          Ok (update_spec (λ _, s) h)
        else Ok h
  end.

End pod_template_builder.

(** [mergo.Merge(dst, src)] with a [dst] that is not a pointer: mergo
    (as of v0.3.13) returns [ErrNonPointerAgument] before it reads [src],
    and merges nothing. *)
Definition mergo_non_pointer : string := "dst must be a pointer".

(** src/podtemplate.go holds earlier map setters.  They hand the map
    itself to [mergo.Merge], not its address, and panic with the error. *)
Module PodTemplateGo.

Definition with_string_map
    (get : PodTemplateBuilderDefault → option (gmap string string))
    (set : option (gmap string string) → PodTemplateBuilderDefault
           → PodTemplateBuilderDefault)
    (new : option (gmap string string)) (opts : list WithOption)
    (h : PodTemplateBuilderDefault) : result PodTemplateBuilderDefault :=
  match get h with
  | None => Ok (set new h)
  | Some _ =>
      if IsOverwrite opts then Ok (set new h)
      else
        zero ← and_then (IsOverwriteIfDefaultValue opts) (Panic Elem_on_map);
        if zero : bool then Ok (set new h)
        else if IsMerge opts then
          match new with
          | Some _ => Panic mergo_non_pointer
          | None => Ok h
          end
        else Ok h
  end.

Definition WithLabels :=
  with_string_map (λ h, PodTemplateSpec.Labels (podTemplate h))
    (λ v, update_template (PodTemplateSpec.set_Labels v)).

Definition WithAnnotations :=
  with_string_map (λ h, PodTemplateSpec.Annotations (podTemplate h))
    (λ v, update_template (PodTemplateSpec.set_Annotations v)).

Definition WithNodeSelector :=
  with_string_map (λ h, PodSpec.NodeSelector (spec h))
    (λ v, update_spec (PodSpec.set_NodeSelector v)).

End PodTemplateGo.

(** ** The deferred ingress builder *)

(** A recorded argument, of Go type [any]. *)
Inductive any : Type :=
  | any_string (s : string)
  | any_options (opts : list WithOption)
  | any_map (m : option (gmap string string))
  | any_IngressSpec (ingressSpec : option IngressSpec.t).

(** Modelled from the spec: the declaration of [Operation] is not among the
    sources; the builder uses its fields [Name] and [Args], the
    "(operation-name, positional-argument-list)" entry of the Operation
    Log. *)
Record Operation : Type := mkOperation {
  Name : string;
  Args : list any }.

Record IngressBuilderDefault : Type := mkIngressBuilder {
  i : Ingress.t;
  operations : list Operation }.

Definition NewIngressBuilder : IngressBuilderDefault :=
  mkIngressBuilder Ingress.zero [].

(** The recording methods: [Args: append([]any{x}, opts)] appends the
    slice [opts] as one element. *)
Definition record (name : string) (x : any) (opts : list WithOption)
    (h : IngressBuilderDefault) : IngressBuilderDefault :=
  let o := mkOperation name [x; any_options opts] in
  mkIngressBuilder (i h) (operations h ++ [o]).

Definition WithIngressSpec (ingressSpec : option IngressSpec.t)
    (opts : list WithOption) :=
  record "withIngressSpec" (any_IngressSpec ingressSpec) opts.

Definition IngressWithLabels (labels : option (gmap string string))
    (opts : list WithOption) :=
  record "withLabels" (any_map labels) opts.

Definition IngressWithAnnotations (annotations : option (gmap string string))
    (opts : list WithOption) :=
  record "withAnnotations" (any_map annotations) opts.

Definition WithName (name : string) (opts : list WithOption) :=
  record "withName" (any_string name) opts.

Definition WithNamespace (namespace : string) (opts : list WithOption) :=
  record "withNamespace" (any_string namespace) opts.

(** The unexported setters the recorded names spell; both return a nil
    error. *)
Definition withName (name : string) (opts : list WithOption)
    (h : IngressBuilderDefault) : IngressBuilderDefault :=
  if IsOverwrite opts || IsMerge opts || bool_decide (Ingress.Name (i h) = "")
  then mkIngressBuilder (Ingress.set_Name name (i h)) (operations h)
  else h.

Definition withNamespace (namespace : string) (opts : list WithOption)
    (h : IngressBuilderDefault) : IngressBuilderDefault :=
  if IsOverwrite opts || IsMerge opts || bool_decide (Ingress.Namespace (i h) = "")
  then mkIngressBuilder (Ingress.set_Namespace namespace (i h)) (operations h)
  else h.



(** [reflect.Value.MethodByName] sees the exported methods of the type only
    and returns the zero [Value] for any other name.  These are the
    exported methods of [*IngressBuilderDefault]. *)
Inductive method : Type :=
  | method_Build
  | method_WithIngressSpec
  | method_WithLabels
  | method_WithAnnotations
  | method_WithName
  | method_WithNamespace.

Definition exported_methods : list (string * method) :=
  [ ("Build", method_Build);
    ("WithAnnotations", method_WithAnnotations);
    ("WithIngressSpec", method_WithIngressSpec);
    ("WithLabels", method_WithLabels);
    ("WithName", method_WithName);
    ("WithNamespace", method_WithNamespace) ].

Definition MethodByName (name : string) : option method :=
  match list_find (λ entry, fst entry = name) exported_methods with
  | Some (_, (_, m)) => Some m
  | None => None
  end.

(** [m.IsZero()] on the zero [Value] panics: IsZero needs a valid value. *)
Definition IsZero_on_zero_Value : string :=
  "reflect: call of reflect.Value.IsZero on zero Value".

(** What the loop over the results of a call inspects: whether the result
    holds a [*error], and whether that pointer is nil.  A non-nil [*error]
    reaches [r.Interface().(error)], a conversion that panics because
    [*error] has no method [Error]. *)
Inductive returned : Type :=
  | returned_error_pointer (is_nil : bool)
  | returned_other.

Definition not_an_error : string :=
  "interface conversion: *error is not error: missing method Error".

Fixpoint check_results (res : list returned) : result unit :=
  match res with
  | [] => Ok tt
  | returned_error_pointer false :: _ => Panic not_an_error
  | _ :: res' => check_results res'
  end.

(** How a run of [Build] ends: it returns [(i, err)] or panics; either way
    the builder is left in some state. *)
Inductive outcome : Type :=
  | Returned (h : IngressBuilderDefault) (built : option Ingress.t) (err : option string)
  | Panicked (h : IngressBuilderDefault) (msg : string).

Section build.
(** [Call m args h] is [m.Call(args)] for the method value [m] bound to the
    builder [h]: the state the call leaves and the values it returns, or
    the panic [reflect] raises (for arguments that do not fit the
    parameters, for instance). *)
Variable Call : method → list any → IngressBuilderDefault
                → result (IngressBuilderDefault * list returned).

(** The loop [for _, o := range h.operations]. *)
Fixpoint replay (ops : list Operation) (h : IngressBuilderDefault)
    : IngressBuilderDefault + IngressBuilderDefault * string :=
  match ops with
  | [] => inl h
  | o :: ops' =>
      if bool_decide (Name o ≠ "") then
        match MethodByName (Name o) with
        | None => inr (h, IsZero_on_zero_Value)
        | Some m =>
            match Call m (Args o) h with
            | Panic msg => inr (h, msg)
            | Ok (h', res) =>
                match check_results res with
                | Panic msg => inr (h', msg)
                | Ok _ => replay ops' h'
                end
            end
        end
      else replay ops' h
  end.

Definition Build (h : IngressBuilderDefault) : outcome :=
  match replay (operations h) h with
  | inl h' => Returned (mkIngressBuilder (i h') []) (Some (i h')) None
  | inr (h', msg) => Panicked h' msg
  end.

End build.

(** ** The Collection Reconciler in the words of the specification

    "For each entry in the new list ... scan the destination list for an
    entry with matching identity.  No match: append the new entry ...
    Match found: replace the matched slot's value ...  First match wins."
    The merge loops of the code are compared with this definition. *)

Definition reconcile_entry {A : Type} (same : A → A → bool)
    (dst : list A) (x : A) : list A :=
  match list_find (λ o, same x o) dst with
  | Some (k, _) => <[k := x]> dst
  | None => dst ++ [x]
  end.

Definition reconcile {A : Type} (same : A → A → bool) (dst new : list A) : list A :=
  foldl (reconcile_entry same) dst new.

(** The entry of [new] that takes the place of the destination entry [d],
    or [d] itself when [new] has no entry with its identity. *)
Definition replaced_by {A : Type} (same : A → A → bool) (new : list A) (d : A) : A :=
  match list_find (λ n, same n d) new with
  | Some (_, n) => n
  | None => d
  end.

(** ** Values of the scenarios *)

Definition nginx : ContainerBuilderDefault :=
  update (Container.set_Image "nginx:1.25") NewContainerBuilder.

(** A port entry [{id, v}]: the identity is the container port, the
    payload the host port. *)
Definition port_entry (id v : Z) : ContainerPort.t :=
  ContainerPort.mk "" v id "TCP" "".

Definition with_ports (l : list ContainerPort.t) : ContainerBuilderDefault :=
  update (Container.set_Ports (Some l)) NewContainerBuilder.

(** The identity of a volume mount: [same_mount] compares these pairs. *)
Definition mount_key (v : VolumeMount.t) : string * string :=
  (VolumeMount.MountPath v, VolumeMount.SubPath v).

(** A pod template with the one container "app". *)
Definition app : Container.t :=
  Container.mk "app" "nginx:1.25" "" None None None None
    ResourceRequirements.zero None.

Definition init_container (name : string) : Container.t :=
  Container.mk name "busybox" "" None None None None
    ResourceRequirements.zero None.

Definition with_containers (l : list Container.t) : PodTemplateBuilderDefault :=
  update_spec (PodSpec.set_Containers (Some l)) NewPodTemplateBuilder.

(** Labels [{"x":"1"}] on the builder and the new map [{"x":"2","y":"3"}]. *)
Definition labelled (m : gmap string string) : PodTemplateBuilderDefault :=
  update_template (PodTemplateSpec.set_Labels (Some m)) NewPodTemplateBuilder.

Definition labels_x1 : gmap string string := {[ "x" := "1" ]}.
Definition labels_x2_y3 : gmap string string := {[ "x" := "2"; "y" := "3" ]}.

(** A container with a privileged security context. *)
Definition privileged : SecurityContext.t :=
  SecurityContext.mk (Some true) None None None.

Definition secured : ContainerBuilderDefault :=
  update (Container.set_SecurityContext (Some privileged)) NewContainerBuilder.

Definition regcred : LocalObjectReference.t := LocalObjectReference.mk "regcred".

(** [NewIngressBuilder().WithName("a").WithName("b")] *)
Definition named_a_then_b : IngressBuilderDefault :=
  WithName "b" [] (WithName "a" [] NewIngressBuilder).

(** ** [MergeSliceOrDie]

    [MergeSliceOrDie(dst *[]any, key string, src ...[]any)] appends to [*dst]
    every item of the lists [src] whose value under [key] no item of [*dst]
    has yet.  [Get item] stands for [funk.Get(item, key)] at the key path of
    the call: a value of type [any], nil when the path meets a nil pointer
    or ends at a zero value.  [equal a b] stands for [a == b] on two such
    interface values: the Go runtime panics on it when both hold the same
    uncomparable type (a slice, a map, a function), and it need not hold
    of a value and itself (a NaN). *)

Section merge_slice.
Context {A K : Type}.
Variable Get : A → K.
Variable equal : K → K → result bool.

(** The inner loop over [*dst]: is there a [currentItem] with the key of
    [expectedItem]?  It stops at the first one. *)
Fixpoint has_item_with_key (dst : list A) (expectedItem : A) : result bool :=
  match dst with
  | [] => Ok false
  | currentItem :: dst' =>
      same ← equal (Get currentItem) (Get expectedItem);
      if same : bool then Ok true else has_item_with_key dst' expectedItem
  end.

Definition MergeSliceOrDie_item (dst : option (list A)) (expectedItem : A)
    : result (option (list A)) :=
  found ← has_item_with_key (elements dst) expectedItem;
  if found : bool then Ok dst else Ok (append dst expectedItem).

Definition MergeSliceOrDie (dst : option (option (list A)))
    (src : list (option (list A))) : result (option (list A)) :=
  match dst with
  | None => Panic "dst can't be nil"
  | Some slice =>
      range_loop
        (λ current items, range_loop MergeSliceOrDie_item (elements items) current)
        src slice
  end.

End merge_slice.

(** What the loops make of a list when every comparison returns and tells
    whether the two keys are the same: the closed form the proofs work
    with.  [funk.Contains(s, value)] in [append_if_absent] is the case of
    the item as its own key. *)

Section by_key.
Context {A K : Type} `{!EqDecision K}.
Variable Get : A → K.

Definition key_present (dst : option (list A)) (expectedItem : A) : bool :=
  existsb (λ currentItem, bool_decide (Get currentItem = Get expectedItem))
    (elements dst).

Definition append_if_new_key (dst : option (list A)) (expectedItem : A)
    : option (list A) :=
  if key_present dst expectedItem then dst else append dst expectedItem.

End by_key.

(** ** Further values of the scenarios *)

(** The items of [TestMergeSliceOrDie]: an [EnvFromSource] that refers to the
    config map of a given name, and the key path
    ["ConfigMapRef.LocalObjectReference.Name"]. *)
Definition config_map_ref (name : string) : EnvFromSource.t :=
  EnvFromSource.mk "" (Some (LocalObjectReference.mk name)) None.

(** [funk.Get] at that path: nil ([None]) for a nil [ConfigMapRef] and
    for an empty name, which is a zero value; the name otherwise. *)
Definition config_map_name (e : EnvFromSource.t) : option string :=
  match EnvFromSource.ConfigMapRef e with
  | Some ref =>
      if bool_decide (LocalObjectReference.Name ref = "") then None
      else Some (LocalObjectReference.Name ref)
  | None => None
  end.

(** [==] on two interface values that hold nil or a string: it returns,
    and tells whether they are the same. *)
Definition equal_names (a b : option string) : result bool :=
  Ok (bool_decide (a = b)).

Definition with_env (l : list EnvVar.t) : ContainerBuilderDefault :=
  update (Container.set_Env (Some l)) NewContainerBuilder.

Definition with_mounts (l : list VolumeMount.t) : ContainerBuilderDefault :=
  update (Container.set_VolumeMounts (Some l)) NewContainerBuilder.

Definition with_init_containers (l : list Container.t) : PodTemplateBuilderDefault :=
  update_spec (PodSpec.set_InitContainers (Some l)) NewPodTemplateBuilder.

Definition data_mount (name : string) : VolumeMount.t :=
  VolumeMount.mk name false "/data" "".

(** A stand-in for the strategic patch, to run the examples that need one:
    the patched value is the new value, or the destination when the new
    value is nil. *)
Definition patch_takes_new (T : Type) : StrategicMerge T :=
  λ dst new, inr (default dst new).

Definition sidecar : Container.t :=
  Container.mk "sidecar" "envoy:1.30" "" None None
    (Some [port_entry 80 9090; port_entry 443 8443]) None
    ResourceRequirements.zero None.

(** The builders that the recording methods make from the builder
    [NewIngressBuilder] returns. *)
Inductive recorded : IngressBuilderDefault → Prop :=
  | recorded_new : recorded NewIngressBuilder
  | recorded_WithIngressSpec h ingressSpec opts :
      recorded h → recorded (WithIngressSpec ingressSpec opts h)
  | recorded_WithLabels h labels opts :
      recorded h → recorded (IngressWithLabels labels opts h)
  | recorded_WithAnnotations h annotations opts :
      recorded h → recorded (IngressWithAnnotations annotations opts h)
  | recorded_WithName h name opts :
      recorded h → recorded (WithName name opts h)
  | recorded_WithNamespace h namespace opts :
      recorded h → recorded (WithNamespace namespace opts h).

(** A stand-in for [m.Call], to run the examples of [Build]: the method
    changes nothing and returns nothing. *)
Definition call_nothing (m : method) (args : list any) (h : IngressBuilderDefault)
    : result (IngressBuilderDefault * list returned) :=
  Ok (h, []).

(** [NewIngressBuilder().WithLabels({"x":"1"}, Merge).WithNamespace("ns")] *)
Definition labelled_in_namespace : IngressBuilderDefault :=
  WithNamespace "ns" [] (IngressWithLabels (Some labels_x1) [Merge] NewIngressBuilder).

(** A pod template with the annotations [m] and the node selector [m]. *)
Definition annotated (m : gmap string string) : PodTemplateBuilderDefault :=
  update_spec (PodSpec.set_NodeSelector (Some m))
    (update_template (PodTemplateSpec.set_Annotations (Some m))
       NewPodTemplateBuilder).

Definition with_grace_period (nb : Z) : PodTemplateBuilderDefault :=
  update_spec (PodSpec.set_TerminationGracePeriodSeconds (Some nb))
    NewPodTemplateBuilder.

(** A container of a given name and image, and a pod template with given
    pull secrets. *)
Definition image_container (name image : string) : Container.t :=
  Container.mk name image "" None None None None ResourceRequirements.zero None.

Definition with_pull_secrets (l : list LocalObjectReference.t)
    : PodTemplateBuilderDefault :=
  update_spec (PodSpec.set_ImagePullSecrets (Some l)) NewPodTemplateBuilder.


(** [==] on two interface values that hold nil or a slice of ports: the
    runtime panics when both hold a slice. *)
Definition equal_ports (a b : option (list ContainerPort.t)) : result bool :=
  match a, b with
  | Some _, Some _ =>
      Panic "runtime error: comparing uncomparable type []v1.ContainerPort"
  | None, None => Ok true
  | _, _ => Ok false
  end.

(** * Properties *)

(** ** Merge policy resolution *)

Lemma IsOverwrite_nil : IsOverwrite [] = true.
Proof. reflexivity. Qed.

Lemma IsOverwrite_cons o rest :
  IsOverwrite (o :: rest) = bool_decide (o = Overwrite).
Proof.
  unfold IsOverwrite; simpl.
  apply bool_decide_ext. split; [by intros [= ->] | by intros ->].
Qed.

Lemma IsOverwriteIfDefaultValue_nil : IsOverwriteIfDefaultValue [] = false.
Proof. reflexivity. Qed.

Lemma IsOverwriteIfDefaultValue_cons o rest :
  IsOverwriteIfDefaultValue (o :: rest) = bool_decide (o = OverwriteIfDefaultValue).
Proof.
  unfold IsOverwriteIfDefaultValue; simpl.
  apply bool_decide_ext. split; [by intros [= ->] | by intros ->].
Qed.

Lemma IsMerge_nil : IsMerge [] = false.
Proof. reflexivity. Qed.

Lemma IsMerge_cons o rest : IsMerge (o :: rest) = bool_decide (o = Merge).
Proof.
  unfold IsMerge; simpl.
  apply bool_decide_ext. split; [by intros [= ->] | by intros ->].
Qed.

Lemma tokens_distinct :
  Overwrite ≠ OverwriteIfDefaultValue ∧ Overwrite ≠ Merge
  ∧ OverwriteIfDefaultValue ≠ Merge.
Proof. by repeat split. Qed.

(** Case analysis on the options: the empty list, or a first token that is
    one of the three constants or none of them. *)
Ltac policy_cases opts :=
  let o := fresh "o" in
  let rest := fresh "rest" in
  destruct opts as [|o rest];
  rewrite ?IsOverwrite_nil, ?IsOverwriteIfDefaultValue_nil, ?IsMerge_nil,
    ?IsOverwrite_cons, ?IsOverwriteIfDefaultValue_cons, ?IsMerge_cons in *;
  repeat case_bool_decide; subst; simpl in *; try done.

Lemma policy_of_Replace opts :
  policy_of opts = Some Replace ↔ IsOverwrite opts = true.
Proof. unfold policy_of. policy_cases opts. Qed.

Lemma policy_of_ReplaceIfUnset opts :
  policy_of opts = Some ReplaceIfUnset ↔ IsOverwriteIfDefaultValue opts = true.
Proof. unfold policy_of. policy_cases opts. Qed.

Lemma policy_of_DeepMerge opts :
  policy_of opts = Some DeepMerge ↔ IsMerge opts = true.
Proof. unfold policy_of. policy_cases opts. Qed.

Lemma policy_of_first o rest : policy_of (o :: rest) = policy_of [o].
Proof.
  unfold policy_of.
  by rewrite !IsOverwrite_cons, !IsOverwriteIfDefaultValue_cons, !IsMerge_cons.
Qed.

(** C7, as the code has it.  With no token the policy is Replace
    ([IsOverwrite] is true); with tokens only the first one counts; the
    predicates are total functions, so no token raises an error; and a
    first token that is none of the three constants makes all three
    predicates false, so it selects no policy at all rather than the
    default one. *)
Theorem policy_resolution (o : WithOption) (rest : list WithOption) :
  (IsOverwrite [] = true ∧ policy_of [] = Some Replace)
  ∧ (IsOverwrite (o :: rest) = IsOverwrite [o]
     ∧ IsOverwriteIfDefaultValue (o :: rest) = IsOverwriteIfDefaultValue [o]
     ∧ IsMerge (o :: rest) = IsMerge [o]
     ∧ policy_of (o :: rest) = policy_of [o])
  ∧ (o ≠ Overwrite → o ≠ OverwriteIfDefaultValue → o ≠ Merge →
     IsOverwrite (o :: rest) = false
     ∧ IsOverwriteIfDefaultValue (o :: rest) = false
     ∧ IsMerge (o :: rest) = false
     ∧ policy_of (o :: rest) = None).
Proof.
  split; [done|]. split.
  - by rewrite !IsOverwrite_cons, !IsOverwriteIfDefaultValue_cons,
      !IsMerge_cons, policy_of_first.
  - intros H1 H2 H3. unfold policy_of.
    rewrite IsOverwrite_cons, IsOverwriteIfDefaultValue_cons, IsMerge_cons.
    by rewrite !bool_decide_false.
Qed.

Lemma policy_resolution_witness :
  IsOverwrite ["replace"; Merge] = false
  ∧ IsOverwriteIfDefaultValue ["replace"; Merge] = false
  ∧ IsMerge ["replace"; Merge] = false
  ∧ policy_of ["replace"; Merge] = None.
Proof.
  apply (proj2 (proj2 (policy_resolution "replace" [Merge]))); done.
Defined.

(** C7 as stated fails: an unknown first token does not resolve to the
    default policy.  The default, for no token, is Replace; the token
    ["replace"] is none of the constants and [IsOverwrite] is false on it. *)
Lemma unknown_token_is_not_default :
  policy_of [] = Some Replace
  ∧ IsOverwrite ["replace"] = false
  ∧ policy_of ["replace"] ≠ policy_of [].
Proof. by repeat split. Qed.

(** C10.  At most one of the three predicates holds of a list of options,
    and of the empty list exactly [IsOverwrite] does; hence [policy_of]
    loses nothing by testing them in order, and a setter takes the branch
    of one policy at most. *)
Theorem policies_exclusive (opts : list WithOption) :
  IsOverwrite opts && IsOverwriteIfDefaultValue opts = false
  ∧ IsOverwrite opts && IsMerge opts = false
  ∧ IsOverwriteIfDefaultValue opts && IsMerge opts = false
  ∧ (IsOverwrite [] = true ∧ IsOverwriteIfDefaultValue [] = false
     ∧ IsMerge [] = false).
Proof. policy_cases opts. Qed.

(** ** Scalar setters *)

Lemma WithImage_overwrites image opts h :
  IsOverwrite opts = true ∨ IsMerge opts = true →
  WithImage image opts h = update (Container.set_Image image) h.
Proof. unfold WithImage. by intros [-> | ->]; rewrite ?orb_true_r. Qed.

Lemma WithImage_if_unset image opts h :
  IsOverwriteIfDefaultValue opts = true →
  WithImage image opts h =
    if bool_decide (Container.Image (container h) = "")
    then update (Container.set_Image image) h else h.
Proof. unfold WithImage. policy_cases opts. Qed.

Lemma WithImagePullPolicy_overwrites pullPolicy opts h :
  IsOverwrite opts = true ∨ IsMerge opts = true →
  WithImagePullPolicy pullPolicy opts h =
    update (Container.set_ImagePullPolicy pullPolicy) h.
Proof. unfold WithImagePullPolicy. by intros [-> | ->]; rewrite ?orb_true_r. Qed.

Lemma WithImagePullPolicy_if_unset pullPolicy opts h :
  IsOverwriteIfDefaultValue opts = true →
  WithImagePullPolicy pullPolicy opts h =
    if bool_decide (Container.ImagePullPolicy (container h) = "")
    then update (Container.set_ImagePullPolicy pullPolicy) h else h.
Proof. unfold WithImagePullPolicy. policy_cases opts. Qed.

Lemma withName_overwrites name opts h :
  IsOverwrite opts = true ∨ IsMerge opts = true →
  Ingress.Name (i (withName name opts h)) = name.
Proof. unfold withName. by intros [-> | ->]; rewrite ?orb_true_r. Qed.

Lemma withName_if_unset name opts h :
  IsOverwriteIfDefaultValue opts = true →
  withName name opts h =
    if bool_decide (Ingress.Name (i h) = "")
    then mkIngressBuilder (Ingress.set_Name name (i h)) (operations h) else h.
Proof. unfold withName. policy_cases opts. Qed.

Lemma withNamespace_overwrites namespace opts h :
  IsOverwrite opts = true ∨ IsMerge opts = true →
  Ingress.Namespace (i (withNamespace namespace opts h)) = namespace.
Proof. unfold withNamespace. by intros [-> | ->]; rewrite ?orb_true_r. Qed.

Lemma withNamespace_if_unset namespace opts h :
  IsOverwriteIfDefaultValue opts = true →
  withNamespace namespace opts h =
    if bool_decide (Ingress.Namespace (i h) = "")
    then mkIngressBuilder (Ingress.set_Namespace namespace (i h)) (operations h)
    else h.
Proof. unfold withNamespace. policy_cases opts. Qed.

(** The grace period is a pointer: unset means nil, and a pointer to 0 is
    a value that ReplaceIfUnset keeps. *)
Lemma WithTerminationGracePeriodSeconds_overwrites nb opts h :
  IsOverwrite opts = true ∨ IsMerge opts = true →
  WithTerminationGracePeriodSeconds nb opts h
  = update_spec (PodSpec.set_TerminationGracePeriodSeconds (Some nb)) h.
Proof.
  unfold WithTerminationGracePeriodSeconds.
  by intros [-> | ->]; rewrite ?orb_true_r.
Qed.

Lemma WithTerminationGracePeriodSeconds_if_unset nb opts h :
  IsOverwriteIfDefaultValue opts = true →
  WithTerminationGracePeriodSeconds nb opts h =
    if bool_decide (PodSpec.TerminationGracePeriodSeconds (spec h) = None)
    then update_spec (PodSpec.set_TerminationGracePeriodSeconds (Some nb)) h
    else h.
Proof. unfold WithTerminationGracePeriodSeconds. policy_cases opts. Qed.

(** C8.  Every scalar setter ([WithImage] and [WithImagePullPolicy] of the
    container builder, [WithTerminationGracePeriodSeconds] of the pod
    template builder, [withName] and [withNamespace] of the ingress builder)
    overwrites the field under Replace and under DeepMerge, whatever the
    field held; under ReplaceIfUnset it overwrites a field that holds the
    zero value (the empty string, or nil for the grace period, which is a
    pointer) and leaves the whole builder as it was when the field holds
    anything else, whatever the new value. *)
Theorem scalar_setter_policy (new : string) (nb : Z) (opts : list WithOption)
    (h : ContainerBuilderDefault) (hp : PodTemplateBuilderDefault)
    (hi : IngressBuilderDefault) :
  (policy_of opts = Some Replace ∨ policy_of opts = Some DeepMerge →
     WithImage new opts h = update (Container.set_Image new) h
     ∧ Container.Image (container (WithImage new opts h)) = new
     ∧ WithImagePullPolicy new opts h = update (Container.set_ImagePullPolicy new) h
     ∧ Container.ImagePullPolicy (container (WithImagePullPolicy new opts h)) = new
     ∧ WithTerminationGracePeriodSeconds nb opts hp
       = update_spec (PodSpec.set_TerminationGracePeriodSeconds (Some nb)) hp
     ∧ PodSpec.TerminationGracePeriodSeconds
         (spec (WithTerminationGracePeriodSeconds nb opts hp)) = Some nb
     ∧ withName new opts hi
       = mkIngressBuilder (Ingress.set_Name new (i hi)) (operations hi)
     ∧ Ingress.Name (i (withName new opts hi)) = new
     ∧ withNamespace new opts hi
       = mkIngressBuilder (Ingress.set_Namespace new (i hi)) (operations hi)
     ∧ Ingress.Namespace (i (withNamespace new opts hi)) = new)
  ∧ (policy_of opts = Some ReplaceIfUnset →
     (Container.Image (container h) = "" →
        Container.Image (container (WithImage new opts h)) = new)
     ∧ (Container.Image (container h) ≠ "" → WithImage new opts h = h)
     ∧ (Container.ImagePullPolicy (container h) = "" →
        Container.ImagePullPolicy (container (WithImagePullPolicy new opts h)) = new)
     ∧ (Container.ImagePullPolicy (container h) ≠ "" →
        WithImagePullPolicy new opts h = h)
     ∧ (PodSpec.TerminationGracePeriodSeconds (spec hp) = None →
        PodSpec.TerminationGracePeriodSeconds
          (spec (WithTerminationGracePeriodSeconds nb opts hp)) = Some nb)
     ∧ (PodSpec.TerminationGracePeriodSeconds (spec hp) ≠ None →
        WithTerminationGracePeriodSeconds nb opts hp = hp)
     ∧ (Ingress.Name (i hi) = "" → Ingress.Name (i (withName new opts hi)) = new)
     ∧ (Ingress.Name (i hi) ≠ "" → withName new opts hi = hi)
     ∧ (Ingress.Namespace (i hi) = "" →
        Ingress.Namespace (i (withNamespace new opts hi)) = new)
     ∧ (Ingress.Namespace (i hi) ≠ "" → withNamespace new opts hi = hi)).
Proof.
  split.
  - rewrite policy_of_Replace, policy_of_DeepMerge. intros Hp.
    rewrite WithImage_overwrites, WithImagePullPolicy_overwrites,
      WithTerminationGracePeriodSeconds_overwrites by done.
    rewrite withName_overwrites, withNamespace_overwrites by done.
    split_and!; try done.
    + unfold withName. by destruct Hp as [-> | ->]; rewrite ?orb_true_r.
    + unfold withNamespace. by destruct Hp as [-> | ->]; rewrite ?orb_true_r.
  - rewrite policy_of_ReplaceIfUnset. intros Hp.
    rewrite WithImage_if_unset, WithImagePullPolicy_if_unset,
      WithTerminationGracePeriodSeconds_if_unset, withName_if_unset,
      withNamespace_if_unset by done.
    repeat split; intros Hz;
      (rewrite bool_decide_true by done) || (rewrite bool_decide_false by done);
      done.
Qed.

Lemma scalar_setter_policy_witness :
  WithImage "busybox" [OverwriteIfDefaultValue] nginx = nginx
  ∧ Container.Image (container (WithImage "busybox" [Merge] nginx)) = "busybox"
  ∧ Container.ImagePullPolicy
      (container (WithImagePullPolicy "Always" [OverwriteIfDefaultValue] nginx))
    = "Always"
  ∧ WithTerminationGracePeriodSeconds 30 [OverwriteIfDefaultValue]
      (with_grace_period 0) = with_grace_period 0
  ∧ Ingress.Name (i (withName "web" [OverwriteIfDefaultValue] NewIngressBuilder))
    = "web"
  ∧ Ingress.Namespace (i (withNamespace "prod" [] NewIngressBuilder)) = "prod".
Proof.
  split_and!.
  - apply (proj2 (scalar_setter_policy "busybox" 0 [OverwriteIfDefaultValue] nginx
                    NewPodTemplateBuilder NewIngressBuilder));
      [reflexivity | simpl; discriminate].
  - apply (proj1 (scalar_setter_policy "busybox" 0 [Merge] nginx
                    NewPodTemplateBuilder NewIngressBuilder)).
    right; reflexivity.
  - apply (proj2 (scalar_setter_policy "Always" 0 [OverwriteIfDefaultValue] nginx
                    NewPodTemplateBuilder NewIngressBuilder));
      reflexivity.
  - apply (proj2 (scalar_setter_policy "" 30 [OverwriteIfDefaultValue] nginx
                    (with_grace_period 0) NewIngressBuilder));
      [reflexivity | simpl; discriminate].
  - apply (proj2 (scalar_setter_policy "web" 0 [OverwriteIfDefaultValue] nginx
                    NewPodTemplateBuilder NewIngressBuilder));
      reflexivity.
  - apply (proj1 (scalar_setter_policy "prod" 0 [] nginx
                    NewPodTemplateBuilder NewIngressBuilder)).
    left; reflexivity.
Defined.

(** ** The merge loops and the Collection Reconciler *)

Lemma IndexOf_from_list_find {A} (pred : A → bool) (l : list A) (start : Z) :
  IndexOf_from start pred l =
    match list_find (λ o, pred o) l with
    | Some (k, _) => start + Z.of_nat k
    | None => -1
    end.
Proof.
  revert start. induction l as [|x l IH]; intros start; simpl; [done|].
  destruct (pred x) eqn:Hx; simpl.
  - lia.
  - rewrite IH.
    destruct (list_find _ l) as [[k y]|]; simpl; [lia | done].
Qed.

Lemma put_by_index_reconcile {A} (same : A → A → bool) (dst : list A) (x : A) :
  put_by_index same (Some dst) x = Ok (Some (reconcile_entry same dst x)).
Proof.
  unfold put_by_index, reconcile_entry, IndexOf, slice_set, append. simpl.
  rewrite IndexOf_from_list_find.
  destruct (list_find _ dst) as [[k y]|] eqn:Hfind.
  - apply list_find_Some in Hfind as (Hk & _ & _).
    apply lookup_lt_Some in Hk.
    rewrite bool_decide_false by lia.
    rewrite bool_decide_true by lia.
    by rewrite Z.add_0_l, Nat2Z.id.
  - by rewrite bool_decide_true.
Qed.

Lemma range_loop_reconcile {A} (same : A → A → bool) (new dst : list A) :
  range_loop (put_by_index same) new (Some dst) = Ok (Some (reconcile same dst new)).
Proof.
  revert dst. induction new as [|x new IH]; intros dst; simpl; [done|].
  rewrite put_by_index_reconcile. simpl. apply IH.
Qed.

Section reconciler.
Context {A K : Type} `{!EqDecision K} (key : A → K) (same : A → A → bool).
Hypothesis same_key : ∀ x o, same x o = bool_decide (key x = key o).

Lemma same_true x o : same x o = true ↔ key x = key o.
Proof. rewrite same_key. apply bool_decide_eq_true. Qed.

Lemma list_find_same_Some x dst k y :
  list_find (λ o, same x o) dst = Some (k, y) →
  dst !! k = Some y ∧ key y = key x
  ∧ ∀ j z, dst !! j = Some z → (j < k)%nat → key z ≠ key x.
Proof.
  intros (Hk & Hy & Hfirst)%list_find_Some.
  apply Is_true_eq_true, same_true in Hy. split_and!; [done..|].
  intros j z Hj Hlt Hz. apply (Hfirst j z Hj Hlt).
  apply Is_true_eq_left, same_true. done.
Qed.

Lemma list_find_same_None x dst :
  list_find (λ o, same x o) dst = None ↔ key x ∉ key <$> dst.
Proof.
  rewrite list_find_None, Forall_forall. split.
  - intros Hall (o & Hkey & Ho)%list_elem_of_fmap.
    apply (Hall o Ho), Is_true_eq_left, same_true. done.
  - intros Hnot o Ho Hsame. apply Hnot, list_elem_of_fmap.
    exists o. split; [|done]. by apply same_true, Is_true_eq_true.
Qed.

(** One step keeps the identities of the slots, and adds one slot exactly
    when the identity is new. *)
Lemma reconcile_entry_keys dst x :
  key <$> reconcile_entry same dst x =
    if decide (key x ∈ key <$> dst) then key <$> dst else (key <$> dst) ++ [key x].
Proof.
  unfold reconcile_entry.
  destruct (list_find _ dst) as [[k y]|] eqn:Hfind.
  - apply list_find_same_Some in Hfind as (Hk & Hy & _).
    rewrite decide_True.
    + rewrite list_fmap_insert. apply list_insert_id.
      by rewrite list_lookup_fmap, Hk, <- Hy.
    + apply list_elem_of_fmap. exists y. split; [done|].
      by apply list_elem_of_lookup_2 in Hk.
  - apply list_find_same_None in Hfind.
    rewrite decide_False by done. by rewrite fmap_app.
Qed.

Lemma reconcile_snoc dst new x :
  reconcile same dst (new ++ [x]) = reconcile_entry same (reconcile same dst new) x.
Proof. unfold reconcile. by rewrite foldl_app. Qed.

(** Slots are never reordered: the identities at the slots of the
    destination stay as they were, one after the other, and new slots come
    after them. *)
Lemma reconcile_keys_prefix dst new :
  (key <$> dst) `prefix_of` (key <$> reconcile same dst new).
Proof.
  induction new as [|x new IH] using rev_ind; [done|].
  rewrite reconcile_snoc, reconcile_entry_keys.
  case_decide; [done|]. by apply prefix_app_r.
Qed.

Lemma reconcile_length_ge dst new :
  (length dst ≤ length (reconcile same dst new))%nat.
Proof.
  pose proof (prefix_length _ _ (reconcile_keys_prefix dst new)) as Hlen.
  by rewrite !length_fmap in Hlen.
Qed.

(** An entry of the destination whose identity no new entry has stays at
    its slot unchanged. *)
Lemma reconcile_untouched dst new k d :
  dst !! k = Some d → key d ∉ key <$> new →
  reconcile same dst new !! k = Some d.
Proof.
  intros Hk. induction new as [|x new IH] using rev_ind; [done|].
  rewrite fmap_app, not_elem_of_app. intros [Hnew Hx].
  rewrite reconcile_snoc. unfold reconcile_entry.
  destruct (list_find _ _) as [[j y]|] eqn:Hfind.
  - apply list_find_same_Some in Hfind as (Hj & Hy & _).
    rewrite list_lookup_insert_ne; [by apply IH|].
    intros ->. rewrite (IH Hnew) in Hj. injection Hj as ->.
    apply Hx. rewrite Hy. simpl. by apply list_elem_of_singleton.
  - apply lookup_app_l_Some. by apply IH.
Qed.

(** When every new identity is already in the destination, nothing is
    appended. *)
Lemma reconcile_keys_known dst new :
  key <$> new ⊆ key <$> dst →
  key <$> reconcile same dst new = key <$> dst.
Proof.
  induction new as [|x new IH] using rev_ind; [done|].
  rewrite fmap_app. intros Hsub.
  rewrite reconcile_snoc, reconcile_entry_keys, IH
    by (intros k Hk; apply Hsub, elem_of_app; by left).
  rewrite decide_True; [done|].
  apply Hsub, elem_of_app. right. by apply list_elem_of_singleton.
Qed.

Lemma reconcile_self_length dst :
  length (reconcile same dst dst) = length dst.
Proof.
  pose proof (reconcile_keys_known dst dst (reflexivity _)) as Hkeys.
  apply (f_equal length) in Hkeys. by rewrite !length_fmap in Hkeys.
Qed.

Lemma replaced_by_key new d : key (replaced_by same new d) = key d.
Proof.
  unfold replaced_by. destruct (list_find _ new) as [[j n]|] eqn:Hfind; [|done].
  apply list_find_Some in Hfind as (_ & Hn & _).
  by apply Is_true_eq_true, same_true in Hn.
Qed.

Lemma replaced_by_absent new d :
  key d ∉ key <$> new → replaced_by same new d = d.
Proof.
  intros Hd. unfold replaced_by.
  destruct (list_find _ new) as [[j n]|] eqn:Hfind; [|done].
  apply list_find_Some in Hfind as (Hj & Hn & _).
  apply Is_true_eq_true, same_true in Hn.
  destruct Hd. rewrite <- Hn. apply list_elem_of_fmap.
  exists n. split; [done|]. by apply list_elem_of_lookup_2 in Hj.
Qed.

Lemma replaced_by_snoc_other new x d :
  key x ≠ key d → replaced_by same (new ++ [x]) d = replaced_by same new d.
Proof.
  intros Hx. unfold replaced_by.
  destruct (list_find _ new) as [[j n]|] eqn:Hfind.
  - by rewrite (list_find_app_l _ _ _ _ _ Hfind).
  - rewrite list_find_app_r by done. simpl.
    destruct (same x d) eqn:Hsame; [|done].
    by apply same_true in Hsame.
Qed.

Lemma replaced_by_snoc_same new x d :
  key x = key d → key x ∉ key <$> new →
  replaced_by same (new ++ [x]) d = x.
Proof.
  intros Hx Hnew. unfold replaced_by.
  rewrite list_find_app_r.
  - simpl. by rewrite (proj2 (same_true x d) Hx).
  - apply list_find_None, Forall_forall. intros n Hn Hsame.
    apply Is_true_eq_true, same_true in Hsame.
    apply Hnew. rewrite Hx, <- Hsame. by apply list_elem_of_fmap_2.
Qed.

(** The result in closed form, when identities are unique in each list:
    the destination with every matched entry replaced at its slot,
    followed by the new entries of novel identity in their order. *)
Lemma reconcile_closed_form dst new :
  NoDup (key <$> dst) → NoDup (key <$> new) →
  reconcile same dst new =
    (replaced_by same new <$> dst) ++ filter (λ n, key n ∉ key <$> dst) new.
Proof.
  intros Hdst. induction new as [|x new IH] using rev_ind; intros Hnew.
  { simpl. rewrite app_nil_r. symmetry.
    rewrite <- (list_fmap_id dst) at 2. by apply list_fmap_ext. }
  rewrite fmap_app in Hnew.
  apply NoDup_app in Hnew as (Hnew & Hfresh & _).
  assert (key x ∉ key <$> new) as Hx.
  { intros Hin. apply (Hfresh _ Hin). simpl. apply list_elem_of_singleton. done. }
  rewrite reconcile_snoc, (IH Hnew), filter_app. clear IH.
  unfold reconcile_entry.
  destruct (decide (key x ∈ key <$> dst)) as [Hold|Hnovel].
  - apply list_elem_of_fmap in Hold as (d & Hd & [k Hk]%list_elem_of_lookup).
    assert (list_find (λ o, same x o)
              ((replaced_by same new <$> dst)
                 ++ filter (λ n, key n ∉ key <$> dst) new) = Some (k, d)) as ->.
    { apply list_find_app_l, list_find_Some. split_and!.
      - rewrite list_lookup_fmap, Hk. simpl. f_equal.
        apply replaced_by_absent. by rewrite <- Hd.
      - by apply Is_true_eq_left, same_true.
      - intros j z Hj Hlt Hsame. apply Is_true_eq_true, same_true in Hsame.
        rewrite list_lookup_fmap in Hj.
        destruct (dst !! j) as [d'|] eqn:Hj'; simplify_eq/=.
        rewrite replaced_by_key in Hsame.
        assert (j = k); [|lia].
        apply (NoDup_lookup _ _ _ (key d) Hdst);
          rewrite list_lookup_fmap; [rewrite Hj' | rewrite Hk]; simpl; congruence. }
    rewrite filter_cons_False, filter_nil, app_nil_r.
    2:{ intros Hn. apply Hn. rewrite Hd. by apply list_elem_of_fmap_2,
          list_elem_of_lookup_2 with k. }
    rewrite insert_app_l by (rewrite length_fmap; by eapply lookup_lt_Some).
    f_equal. apply list_eq. intros j.
    destruct (decide (j = k)) as [->|Hne].
    + rewrite list_lookup_insert_eq
        by (rewrite length_fmap; by eapply lookup_lt_Some).
      rewrite list_lookup_fmap, Hk. simpl. f_equal.
      symmetry. by apply replaced_by_snoc_same.
    + rewrite list_lookup_insert_ne by done.
      rewrite !list_lookup_fmap.
      destruct (dst !! j) as [d'|] eqn:Hj; [|done]. simpl. f_equal.
      symmetry. apply replaced_by_snoc_other. intros Heq. apply Hne.
      apply (NoDup_lookup _ _ _ (key d) Hdst);
        rewrite list_lookup_fmap; [rewrite Hj | rewrite Hk]; simpl; congruence.
  - assert (list_find (λ o, same x o)
              ((replaced_by same new <$> dst)
                 ++ filter (λ n, key n ∉ key <$> dst) new) = None) as ->.
    { apply list_find_same_None. rewrite fmap_app, not_elem_of_app. split.
      - intros (z & Hz & (d & -> & Hd)%list_elem_of_fmap)%list_elem_of_fmap.
        rewrite replaced_by_key in Hz. apply Hnovel. rewrite Hz.
        by apply list_elem_of_fmap_2.
      - intros (z & Hz & (_ & Hin)%list_elem_of_filter)%list_elem_of_fmap.
        apply Hx. rewrite Hz. by apply list_elem_of_fmap_2. }
    rewrite filter_cons_True, filter_nil by done.
    rewrite <- app_assoc. f_equal.
    apply list_fmap_ext. intros j d Hj.
    symmetry. apply replaced_by_snoc_other. intros Heq. apply Hnovel.
    rewrite Heq. by apply list_elem_of_fmap_2, list_elem_of_lookup_2 with j.
Qed.

(** Merging a list of unique identities with itself changes nothing. *)
Lemma reconcile_self dst :
  NoDup (key <$> dst) → reconcile same dst dst = dst.
Proof.
  intros Hdst. rewrite reconcile_closed_form by done.
  assert (filter (λ n, key n ∉ key <$> dst) dst = []) as ->.
  { apply elem_of_nil_inv. intros n (Hnot & Hn)%list_elem_of_filter.
    apply Hnot. by apply list_elem_of_fmap_2. }
  rewrite app_nil_r. rewrite <- (list_fmap_id dst) at 3.
  apply list_fmap_ext. intros k d Hk. unfold replaced_by.
  destruct (list_find _ dst) as [[j n]|] eqn:Hfind; [|done].
  apply list_find_Some in Hfind as (Hj & Hn & _).
  apply Is_true_eq_true, same_true in Hn.
  assert (j = k) as ->; [|unfold id; congruence].
  apply (NoDup_lookup _ _ _ (key d) Hdst);
    rewrite list_lookup_fmap; [rewrite Hj | rewrite Hk]; simpl; congruence.
Qed.

End reconciler.

(** ** Identity-keyed list setters *)

Lemma same_port_key x o :
  same_port x o = bool_decide (ContainerPort.ContainerPort x = ContainerPort.ContainerPort o).
Proof. done. Qed.

Lemma same_mount_key x o : same_mount x o = bool_decide (mount_key x = mount_key o).
Proof.
  unfold same_mount, mount_key.
  repeat case_bool_decide; simpl; congruence.
Qed.

Lemma merge_policy_only opts :
  policy_of opts = Some DeepMerge →
  IsOverwrite opts = false ∧ IsOverwriteIfDefaultValue opts = false
  ∧ IsMerge opts = true.
Proof. unfold policy_of. policy_cases opts. Qed.

Lemma WithPort_merge ports opts h dst :
  Container.Ports (container h) = Some dst →
  policy_of opts = Some DeepMerge →
  WithPort ports opts h =
    Ok (update (Container.set_Ports
                  (Some (reconcile same_port dst (elements ports)))) h).
Proof.
  intros Hdst (Ho & Hd & Hm)%merge_policy_only.
  unfold WithPort. rewrite Hdst, Ho, Hd, Hm. simpl.
  by rewrite range_loop_reconcile.
Qed.

Lemma WithVolumeMount_merge volumeMounts opts h dst :
  Container.VolumeMounts (container h) = Some dst →
  policy_of opts = Some DeepMerge →
  WithVolumeMount volumeMounts opts h =
    Ok (update (Container.set_VolumeMounts
                  (Some (reconcile same_mount dst (elements volumeMounts)))) h).
Proof.
  intros Hdst (Ho & Hd & Hm)%merge_policy_only.
  unfold WithVolumeMount. rewrite Hdst, Ho, Hd, Hm. simpl.
  by rewrite range_loop_reconcile.
Qed.

(** On a nil destination the Merge option stores the copy of the new list
    as Replace does, and ReplaceIfUnset on a non-nil destination panics in
    [reflect.Value.Elem], which does not accept a slice. *)
Lemma WithPort_nil_destination ports opts h :
  Container.Ports (container h) = None →
  WithPort ports opts h
  = Ok (update (Container.set_Ports (Some (elements ports))) h).
Proof. intros Hdst. unfold WithPort. by rewrite Hdst. Qed.

Lemma WithPort_if_unset_panics ports opts h dst :
  Container.Ports (container h) = Some dst →
  policy_of opts = Some ReplaceIfUnset →
  WithPort ports opts h = Panic Elem_on_slice.
Proof.
  intros Hdst Hpolicy. unfold WithPort. rewrite Hdst.
  revert Hpolicy. unfold policy_of. policy_cases opts.
Qed.

(** X24.  [WithPort] with the Merge option on a non-nil destination never
    panics and yields the destination reconciled with the new list by
    container port: each new entry replaces the first destination entry of
    its identity at that slot, or is appended when there is none.  The
    identities at the slots of the destination are as before and in the same
    order, an entry whose identity no new entry has is untouched, and when
    identities are unique in each list the result is the destination with
    matched entries replaced in place, followed by the novel entries in the
    order of the new list. *)
Theorem WithPort_merge_by_identity
    (ports : option (list ContainerPort.t)) (opts : list WithOption)
    (h : ContainerBuilderDefault) (dst : list ContainerPort.t) :
  Container.Ports (container h) = Some dst →
  policy_of opts = Some DeepMerge →
  ∃ merged : list ContainerPort.t,
    WithPort ports opts h = Ok (update (Container.set_Ports (Some merged)) h)
    ∧ merged = reconcile same_port dst (elements ports)
    ∧ (ContainerPort.ContainerPort <$> dst)
        `prefix_of` (ContainerPort.ContainerPort <$> merged)
    ∧ (∀ k d, dst !! k = Some d →
         ContainerPort.ContainerPort d
           ∉ ContainerPort.ContainerPort <$> elements ports →
         merged !! k = Some d)
    ∧ (NoDup (ContainerPort.ContainerPort <$> dst) →
       NoDup (ContainerPort.ContainerPort <$> elements ports) →
       merged =
         (replaced_by same_port (elements ports) <$> dst)
         ++ filter (λ n, ContainerPort.ContainerPort n
                           ∉ ContainerPort.ContainerPort <$> dst)
              (elements ports)).
Proof.
  intros Hdst Hpolicy. eexists. split; [by apply WithPort_merge|].
  split; [done|]. split_and!.
  - by apply reconcile_keys_prefix.
  - intros k d. by apply reconcile_untouched.
  - by apply reconcile_closed_form.
Qed.

(** The scenario [{a,1},{b,2}] merged with [{b,99},{c,3}] gives
    [{a,1},{b,99},{c,3}] (identities a, b, c are the ports 1, 2, 3). *)
Lemma WithPort_merge_by_identity_witness :
  WithPort (Some [port_entry 2 99; port_entry 3 3]) [Merge]
    (with_ports [port_entry 1 1; port_entry 2 2])
  = Ok (with_ports [port_entry 1 1; port_entry 2 99; port_entry 3 3]).
Proof.
  destruct (WithPort_merge_by_identity
              (Some [port_entry 2 99; port_entry 3 3]) [Merge]
              (with_ports [port_entry 1 1; port_entry 2 2])
              [port_entry 1 1; port_entry 2 2] eq_refl eq_refl)
    as (merged & -> & -> & _).
  reflexivity.
Defined.

(** The same holds of [WithVolumeMount], keyed by mount path and sub
    path. *)
Lemma WithVolumeMount_merge_by_identity volumeMounts opts h dst :
  Container.VolumeMounts (container h) = Some dst →
  policy_of opts = Some DeepMerge →
  ∃ merged,
    WithVolumeMount volumeMounts opts h
      = Ok (update (Container.set_VolumeMounts (Some merged)) h)
    ∧ merged = reconcile same_mount dst (elements volumeMounts)
    ∧ (mount_key <$> dst) `prefix_of` (mount_key <$> merged)
    ∧ (∀ k d, dst !! k = Some d →
         mount_key d ∉ mount_key <$> elements volumeMounts →
         merged !! k = Some d)
    ∧ (NoDup (mount_key <$> dst) →
       NoDup (mount_key <$> elements volumeMounts) →
       merged =
         (replaced_by same_mount (elements volumeMounts) <$> dst)
         ++ filter (λ n, mount_key n ∉ mount_key <$> dst) (elements volumeMounts)).
Proof.
  intros Hdst Hpolicy. eexists. split; [by apply WithVolumeMount_merge|].
  split; [done|]. split_and!.
  - apply reconcile_keys_prefix, same_mount_key.
  - intros k d. apply reconcile_untouched, same_mount_key.
  - apply reconcile_closed_form, same_mount_key.
Qed.

(** Merging the ports, or the volume mounts, of a builder with themselves
    keeps the length of the list, and keeps the list itself when its
    identities are unique. *)
Lemma WithPort_merge_self opts h dst :
  Container.Ports (container h) = Some dst →
  policy_of opts = Some DeepMerge →
  ∃ merged,
    WithPort (Some dst) opts h = Ok (update (Container.set_Ports (Some merged)) h)
    ∧ length merged = length dst
    ∧ (NoDup (ContainerPort.ContainerPort <$> dst) → merged = dst).
Proof.
  intros Hdst Hpolicy. eexists. split; [by apply WithPort_merge|]. split.
  - by apply (reconcile_self_length ContainerPort.ContainerPort).
  - by apply reconcile_self.
Qed.

Lemma WithVolumeMount_merge_self opts h dst :
  Container.VolumeMounts (container h) = Some dst →
  policy_of opts = Some DeepMerge →
  ∃ merged,
    WithVolumeMount (Some dst) opts h
      = Ok (update (Container.set_VolumeMounts (Some merged)) h)
    ∧ length merged = length dst
    ∧ (NoDup (mount_key <$> dst) → merged = dst).
Proof.
  intros Hdst Hpolicy. eexists. split; [by apply WithVolumeMount_merge|]. split.
  - apply (reconcile_self_length mount_key), same_mount_key.
  - apply reconcile_self, same_mount_key.
Qed.

(** ** Lists of containers *)

Section containers.
Context `{!StrategicMerge Container.t}.

(** C4 fails on [WithContainers].  The template holds the one container
    "app", as [WithContainers([app])] leaves it, and has no init container.
    Merging the same list into it looks "app" up among the init containers,
    finds nothing and appends: the list has two entries, both "app".  *)
Theorem WithContainers_merge_self_appends :
  WithContainers (Some [app]) [] NewPodTemplateBuilder = Ok (with_containers [app])
  ∧ WithContainers (Some [app]) [Merge] (with_containers [app])
    = Ok (with_containers [app; app])
  ∧ length [app; app] ≠ length [app]
  ∧ ¬ NoDup [app; app].
Proof.
  split_and!; [done..| |].
  - simpl. lia.
  - intros Hnodup. apply NoDup_cons_1_1 in Hnodup. apply Hnodup. by left.
Qed.

Lemma IndexOf_absent {A} (l : option (list A)) (pred : A → bool) :
  (∀ o, o ∈ elements l → pred o = false) → IndexOf l pred = -1.
Proof.
  intros Hall. unfold IndexOf. rewrite IndexOf_from_list_find.
  destruct (list_find _ _) as [[k o]|] eqn:Hfind; [|done].
  apply list_find_Some in Hfind as (Hk & Ho & _).
  apply list_elem_of_lookup_2, Hall in Hk. by rewrite Hk in Ho.
Qed.

Lemma WithContainers_loop_appends new dst s :
  PodSpec.Containers s = Some dst →
  (∀ c, c ∈ new →
     Container.Name c ∉ Container.Name <$> elements (PodSpec.InitContainers s)) →
  range_loop WithContainers_body new s
  = Ok (PodSpec.set_Containers (Some (dst ++ new)) s).
Proof.
  revert dst s. induction new as [|c new IH]; intros dst s Hdst Hnew.
  - simpl. rewrite app_nil_r. destruct s; simpl in *. by subst.
  - change (range_loop WithContainers_body (c :: new) s)
      with (WithContainers_body s c ≫= range_loop WithContainers_body new).
    unfold WithContainers_body.
    rewrite IndexOf_absent.
    2:{ intros o Ho. apply bool_decide_eq_false. intros Hname.
        apply (Hnew c); [by left|]. rewrite Hname.
        by apply list_elem_of_fmap_2. }
    rewrite bool_decide_true by done.
    simpl. rewrite (IH (dst ++ [c])).
    + destruct s; simpl. unfold append, elements. simpl in Hdst. subst. simpl.
      by rewrite <- app_assoc.
    + destruct s; simpl in *. by subst.
    + intros c' Hc'. destruct s; simpl in *. apply Hnew. by right.
Qed.

(** With the Merge option [WithContainers] appends every new container
    whose name no init container has, also when a container of that name
    is in the destination already. *)
Lemma WithContainers_merge_appends opts h dst new :
  PodSpec.Containers (spec h) = Some dst →
  policy_of opts = Some DeepMerge →
  (∀ c, c ∈ new →
     Container.Name c
       ∉ Container.Name <$> elements (PodSpec.InitContainers (spec h))) →
  WithContainers (Some new) opts h
  = Ok (update_spec (PodSpec.set_Containers (Some (dst ++ new))) h).
Proof.
  intros Hdst (Ho & Hd & Hm)%merge_policy_only Hnew.
  unfold WithContainers. rewrite Hdst, Ho, Hd, Hm. simpl.
  by rewrite (WithContainers_loop_appends new dst).
Qed.

(** A name found among the init containers is used as an index into the
    containers, where it may be out of range. *)
Lemma WithContainers_merge_out_of_range :
  WithContainers (Some [app]) [Merge]
    (update_spec (PodSpec.set_InitContainers
                    (Some [init_container "setup"; init_container "app"]))
       (with_containers [app]))
  = Panic index_panic.
Proof. reflexivity. Qed.

(** C3 fails on [WithContainers] and on [WithImagePullSecrets].  The
    containers [a, b] merged with [b', c], where [b'] has the name of [b]
    and another image, should give [a, b', c]: the loop looks the names up
    among the init containers, of which there are none, and appends both,
    so [b] is not replaced at its slot and the list holds two containers
    named "b".  The pull secrets [a] merged with [c] should give [a, c]:
    the loop runs over the outer [tmpIps], which is nil, so the novel entry
    is not appended. *)
Theorem identity_merge_fails_on_containers_and_pull_secrets :
  WithContainers
    (Some [image_container "b" "alpine"; image_container "c" "busybox"]) [Merge]
    (with_containers [image_container "a" "busybox"; image_container "b" "busybox"])
  = Ok (with_containers
          [image_container "a" "busybox"; image_container "b" "busybox";
           image_container "b" "alpine"; image_container "c" "busybox"])
  ∧ [image_container "a" "busybox"; image_container "b" "busybox";
     image_container "b" "alpine"; image_container "c" "busybox"]
    ≠ [image_container "a" "busybox"; image_container "b" "alpine";
       image_container "c" "busybox"]
  ∧ WithImagePullSecrets (Some [LocalObjectReference.mk "c"]) [Merge]
      (with_pull_secrets [LocalObjectReference.mk "a"])
    = Ok (with_pull_secrets [LocalObjectReference.mk "a"])
  ∧ [LocalObjectReference.mk "a"]
    ≠ [LocalObjectReference.mk "a"; LocalObjectReference.mk "c"].
Proof. by split_and!. Qed.

End containers.

(** ** Stored copies of caller-supplied lists *)

(** C9 fails on [WithImagePullSecrets]: the copy is made into a variable
    that the block of the [if] shadows, and the field receives the outer
    variable, which is nil.  After the call with the one reference
    "regcred" the builder holds no pull secret at all, so the stored list
    is not element-wise equal to the argument. *)
Theorem WithImagePullSecrets_stores_nil :
  WithImagePullSecrets (Some [regcred]) [] NewPodTemplateBuilder
  = Ok NewPodTemplateBuilder
  ∧ PodSpec.ImagePullSecrets (spec NewPodTemplateBuilder) = None
  ∧ elements (PodSpec.ImagePullSecrets (spec NewPodTemplateBuilder)) ≠ [regcred].
Proof. by split_and!. Qed.

(** Whatever the argument and the destination, under Replace the field is
    nil after the call; and with the Merge option nothing is ever added. *)
Lemma WithImagePullSecrets_replace ips opts h :
  policy_of opts = Some Replace →
  WithImagePullSecrets ips opts h
  = Ok (update_spec (PodSpec.set_ImagePullSecrets None) h).
Proof.
  rewrite policy_of_Replace. intros Ho. unfold WithImagePullSecrets.
  rewrite Ho. by destruct (PodSpec.ImagePullSecrets (spec h)).
Qed.

Lemma WithImagePullSecrets_merge ips opts h dst :
  PodSpec.ImagePullSecrets (spec h) = Some dst →
  policy_of opts = Some DeepMerge →
  WithImagePullSecrets ips opts h = Ok h.
Proof.
  intros Hdst (Ho & Hd & Hm)%merge_policy_only.
  unfold WithImagePullSecrets. rewrite Hdst, Ho, Hd, Hm. simpl.
  destruct h as [[labels annotations s]]. unfold update_spec, update_template.
  simpl in *. destruct s. simpl in *. by subst.
Qed.

(** [WithEnvFrom], which assigns the copy to the variable it declared,
    stores the elements of its argument. *)
Lemma WithEnvFrom_replace envFroms opts h :
  policy_of opts = Some Replace →
  ∃ h', WithEnvFrom envFroms opts h = Ok h'
        ∧ Container.EnvFrom (container h') = Some (elements envFroms).
Proof.
  rewrite policy_of_Replace. intros Ho. unfold WithEnvFrom. rewrite Ho.
  destruct (Container.EnvFrom (container h)); by eexists.
Qed.

(** ** Nil passed to a nested-record setter *)

Section nil_argument.
Context `{!StrategicMerge ResourceRequirements.t}.
Context `{!StrategicMerge SecurityContext.t}.

(** C6 fails on the code.  [WithSecurityContext(nil)] with no option
    assigns nil to the field, so a builder that held a privileged security
    context holds none afterwards; and the [WithResource] of
    src/container.go dereferences its nil argument and panics. *)
Theorem nil_argument_is_not_ignored :
  Container.SecurityContext (container secured) = Some privileged
  ∧ (∃ h', WithSecurityContext None [] secured = Ok h'
           ∧ Container.SecurityContext (container h') = None)
  ∧ ContainerGo.WithResource None [] NewContainerBuilder = Panic nil_dereference.
Proof. split_and!; [done| by eexists |done]. Qed.

(** Under Replace a nil argument always clears the security context. *)
Lemma WithSecurityContext_nil_replace opts h :
  policy_of opts = Some Replace →
  WithSecurityContext None opts h
  = Ok (update (Container.set_SecurityContext None) h).
Proof.
  rewrite policy_of_Replace. intros Ho. unfold WithSecurityContext.
  rewrite Ho. by destruct (Container.SecurityContext (container h)).
Qed.

(** The later [WithResource] has the guard: nil is ignored under every
    list of options. *)
Lemma WithResource_nil opts h : WithResource None opts h = Ok h.
Proof. done. Qed.

Lemma ContainerGo_WithResource_nil_replace opts h :
  policy_of opts = Some Replace →
  ContainerGo.WithResource None opts h = Panic nil_dereference.
Proof.
  rewrite policy_of_Replace. intros Ho. unfold ContainerGo.WithResource.
  by rewrite Ho.
Qed.

End nil_argument.

(** ** Maps of strings *)

Lemma lookup_mergo_Merge dst src k :
  mergo_Merge dst src !! k = mergo_entry (dst !! k) (src !! k).
Proof.
  unfold mergo_Merge. rewrite lookup_merge.
  by destruct (dst !! k), (src !! k).
Qed.

Lemma with_string_map_merge get set new opts h dst :
  get h = Some dst →
  policy_of opts = Some DeepMerge →
  with_string_map get set (Some new) opts h
  = Ok (set (Some (mergo_Merge dst new)) h).
Proof.
  intros Hdst (Ho & Hd & Hm)%merge_policy_only.
  unfold with_string_map. by rewrite Hdst, Ho, Hd, Hm.
Qed.




(** The annotations and the node selector are merged the same way. *)
Lemma WithAnnotations_merge annotations dst opts h :
  PodTemplateSpec.Annotations (podTemplate h) = Some dst →
  policy_of opts = Some DeepMerge →
  WithAnnotations (Some annotations) opts h
  = Ok (update_template
          (PodTemplateSpec.set_Annotations (Some (mergo_Merge dst annotations))) h).
Proof. intros. unfold WithAnnotations. by rewrite (with_string_map_merge _ _ _ _ _ dst). Qed.

Lemma WithNodeSelector_merge nodeSelector dst opts h :
  PodSpec.NodeSelector (spec h) = Some dst →
  policy_of opts = Some DeepMerge →
  WithNodeSelector (Some nodeSelector) opts h
  = Ok (update_spec (PodSpec.set_NodeSelector (Some (mergo_Merge dst nodeSelector))) h).
Proof. intros. unfold WithNodeSelector. by rewrite (with_string_map_merge _ _ _ _ _ dst). Qed.

(** ** The deferred ingress builder *)

Lemma MethodByName_recorded :
  MethodByName "withName" = None ∧ MethodByName "withNamespace" = None
  ∧ MethodByName "withLabels" = None ∧ MethodByName "withAnnotations" = None
  ∧ MethodByName "withIngressSpec" = None.
Proof. by split_and!. Qed.

(** The setter the recorded name spells would do what C1 expects. *)
Lemma withName_twice h :
  Ingress.Name (i (withName "b" [] (withName "a" [] h))) = "b".
Proof. done. Qed.

Section deferred_builder.
Variable Call : method → list any → IngressBuilderDefault
                → result (IngressBuilderDefault * list returned).

Lemma replay_app applied rest h :
  replay Call (applied ++ rest) h =
    match replay Call applied h with
    | inl h' => replay Call rest h'
    | inr failure => inr failure
    end.
Proof.
  revert h. induction applied as [|o applied IH]; intros h; simpl; [done|].
  case_bool_decide; [|done].
  destruct (MethodByName (Name o)); [|done].
  destruct (Call _ _ _) as [[h' res]|]; [|done].
  by destruct (check_results res).
Qed.

(** An entry whose name is not an exported method stops the replay with
    the panic of [IsZero]; the builder is as the operations before it left
    it, and its log is not cleared. *)
Lemma replay_unresolved applied o rest h h' :
  replay Call applied h = inl h' →
  Name o ≠ "" → MethodByName (Name o) = None →
  replay Call (applied ++ o :: rest) h = inr (h', IsZero_on_zero_Value).
Proof.
  intros Happlied Hname Hmethod. rewrite replay_app, Happlied. simpl.
  by rewrite bool_decide_true, Hmethod.
Qed.

(** C1 fails on the code.  [WithName] records the name "withName", which is
    not an exported method of the builder, so [MethodByName] returns the
    zero [Value] and [m.IsZero()] panics on it.  [Build] applies neither
    operation: it panics at the first one, the name of the ingress is still
    empty and the two operations are still in the log. *)
Theorem Build_panics_on_recorded_names :
  operations named_a_then_b
    = [ mkOperation "withName" [any_string "a"; any_options []];
        mkOperation "withName" [any_string "b"; any_options []] ]
  ∧ Build Call named_a_then_b = Panicked named_a_then_b IsZero_on_zero_Value
  ∧ Ingress.Name (i named_a_then_b) = ""
  ∧ operations named_a_then_b ≠ [].
Proof. by split_and!. Qed.

(** C5 fails on the code.  On a log whose entry does not resolve, here the
    one [WithName("a")] records, [Build] panics instead of returning the
    error that names the method; and [Build] returns a nil error whenever
    it returns. *)
Theorem Build_never_returns_an_error :
  Build Call (WithName "a" [] NewIngressBuilder)
    = Panicked (WithName "a" [] NewIngressBuilder) IsZero_on_zero_Value
  ∧ ∀ h : IngressBuilderDefault,
      match Build Call h with
      | Returned _ _ err => err = None
      | Panicked _ _ => True
      end.
Proof.
  split; [done|]. intros h. unfold Build.
  by destruct (replay Call (operations h) h) as [|[]].
Qed.

(** What the operations before the failing entry did is kept. *)
Lemma Build_unresolved_keeps_prefix applied o rest built h' :
  replay Call applied (mkIngressBuilder built (applied ++ o :: rest)) = inl h' →
  Name o ≠ "" → MethodByName (Name o) = None →
  Build Call (mkIngressBuilder built (applied ++ o :: rest))
  = Panicked h' IsZero_on_zero_Value.
Proof.
  intros Happlied Hname Hmethod. unfold Build. simpl.
  by rewrite (replay_unresolved applied o rest _ h').
Qed.

End deferred_builder.

(** * Further properties of the code *)

(** ** Lists merged by key *)

Section merge_slice_facts.
Context {A K : Type} `{!EqDecision K} (Get : A → K).

Lemma key_present_elem_of dst x :
  key_present Get dst x = true ↔ Get x ∈ Get <$> elements dst.
Proof.
  unfold key_present. rewrite existsb_exists, list_elem_of_fmap.
  split.
  - intros (y & Hy%list_elem_of_In & Heq%bool_decide_eq_true). by exists y.
  - intros (y & Heq & Hy). exists y. split; [by apply list_elem_of_In|].
    by apply bool_decide_eq_true.
Qed.

Lemma append_if_new_key_elements dst x :
  elements (append_if_new_key Get dst x) =
    if decide (Get x ∈ Get <$> elements dst) then elements dst
    else elements dst ++ [x].
Proof.
  unfold append_if_new_key.
  destruct (key_present Get dst x) eqn:Hhas.
  - apply key_present_elem_of in Hhas. by rewrite decide_True.
  - rewrite decide_False; [done|].
    intros Hin%key_present_elem_of. congruence.
Qed.

(** The lists of [src] are consumed one after the other: the result is that
    of their concatenation. *)
Lemma append_if_new_key_concat slice src :
  foldl (λ current items, foldl (append_if_new_key Get) current (elements items))
    slice src
  = foldl (append_if_new_key Get) slice (concat (elements <$> src)).
Proof.
  revert slice. induction src as [|items src IH]; intros slice; simpl; [done|].
  by rewrite foldl_app, IH.
Qed.

Lemma merge_items_prefix dst items :
  elements dst `prefix_of` elements (foldl (append_if_new_key Get) dst items).
Proof.
  induction items as [|x items IH] using rev_ind; [done|].
  rewrite foldl_app. simpl. rewrite append_if_new_key_elements.
  case_decide; [done|]. by apply prefix_app_r.
Qed.

Lemma merge_items_covers dst items x :
  x ∈ items →
  Get x ∈ Get <$> elements (foldl (append_if_new_key Get) dst items).
Proof.
  induction items as [|y items IH] using rev_ind; [by intros ?%elem_of_nil|].
  rewrite foldl_app. simpl. rewrite append_if_new_key_elements.
  intros [Hx | ->%list_elem_of_singleton]%elem_of_app; case_decide.
  - by apply IH.
  - rewrite fmap_app. apply elem_of_app. left. by apply IH.
  - done.
  - rewrite fmap_app. apply elem_of_app. right. by apply list_elem_of_singleton.
Qed.

Lemma merge_items_provenance dst items y :
  y ∈ elements (foldl (append_if_new_key Get) dst items) →
  y ∈ elements dst ∨ y ∈ items.
Proof.
  induction items as [|x items IH] using rev_ind; [by left|].
  rewrite foldl_app. simpl. rewrite append_if_new_key_elements.
  case_decide.
  - intros [?|?]%IH; [by left|]. right. apply elem_of_app. by left.
  - intros [[?|?]%IH | ->%list_elem_of_singleton]%elem_of_app.
    + by left.
    + right. apply elem_of_app. by left.
    + right. apply elem_of_app. right. by apply list_elem_of_singleton.
Qed.

Lemma merge_items_NoDup dst items :
  NoDup (Get <$> elements dst) →
  NoDup (Get <$> elements (foldl (append_if_new_key Get) dst items)).
Proof.
  intros Hdst. induction items as [|x items IH] using rev_ind; [done|].
  rewrite foldl_app. simpl. rewrite append_if_new_key_elements.
  case_decide; [done|].
  rewrite fmap_app. apply NoDup_app. split_and!; [done| |apply NoDup_singleton].
  by intros k Hk ->%list_elem_of_singleton.
Qed.

Lemma merge_items_absorbed dst items :
  (∀ x, x ∈ items → Get x ∈ Get <$> elements dst) →
  foldl (append_if_new_key Get) dst items = dst.
Proof.
  induction items as [|x items IH]; intros Hall; simpl; [done|].
  unfold append_if_new_key at 2.
  rewrite (proj2 (key_present_elem_of dst x)) by (apply Hall; by left).
  apply IH. intros y Hy. apply Hall. by right.
Qed.

End merge_slice_facts.

Lemma elem_of_concat {A} (x : A) (ls : list (list A)) :
  x ∈ concat ls ↔ ∃ l, x ∈ l ∧ l ∈ ls.
Proof.
  induction ls as [|l ls IH]; simpl.
  - split; [by intros ?%elem_of_nil | by intros (l & _ & ?%elem_of_nil)].
  - rewrite elem_of_app, IH. split.
    + intros [Hx | (l' & Hx & Hl')]; [exists l | exists l'];
        (split; [done|]); [by left | by right].
    + intros (l' & Hx & [-> | Hl']%elem_of_cons); [by left|].
      right. by exists l'.
Qed.

(** ** [MergeSliceOrDie] *)

Lemma range_loop_app {A S} (body : S → A → result S) (xs ys : list A) (s : S) :
  range_loop body (xs ++ ys) s = range_loop body xs s ≫= range_loop body ys.
Proof.
  revert s. induction xs as [|x xs IH]; intros s; simpl; [done|].
  destruct (body s x) as [s'|msg]; simpl; [apply IH|done].
Qed.

Section merge_slice_loops.
Context {A K : Type} (Get : A → K) (equal : K → K → result bool).

(** The lists of [src] are consumed one after the other: the result is that
    of their concatenation. *)
Lemma MergeSliceOrDie_concat slice src :
  range_loop
    (λ current items,
       range_loop (MergeSliceOrDie_item Get equal) (elements items) current)
    src slice
  = range_loop (MergeSliceOrDie_item Get equal) (concat (elements <$> src)) slice.
Proof.
  revert slice. induction src as [|items src IH]; intros slice; simpl; [done|].
  rewrite range_loop_app.
  destruct (range_loop _ (elements items) slice) as [current|msg]; simpl;
    [apply IH|done].
Qed.

Lemma has_item_with_key_panic dst x msg :
  has_item_with_key Get equal dst x = Panic msg →
  ∃ c, c ∈ dst ∧ equal (Get c) (Get x) = Panic msg.
Proof.
  induction dst as [|c dst IH]; simpl; [done|].
  destruct (equal (Get c) (Get x)) as [[]|msg'] eqn:Hequal; simpl.
  - done.
  - intros (c' & Hc' & Hpanic)%IH. exists c'. split; [by right|done].
  - intros [= ->]. exists c. split; [by left|done].
Qed.

Lemma MergeSliceOrDie_item_outcome dst x :
  match MergeSliceOrDie_item Get equal dst x with
  | Ok dst' => dst' = dst ∨ dst' = append dst x
  | Panic msg => ∃ c, c ∈ elements dst ∧ equal (Get c) (Get x) = Panic msg
  end.
Proof.
  unfold MergeSliceOrDie_item.
  destruct (has_item_with_key Get equal (elements dst) x) as [[]|msg] eqn:Hfound;
    simpl; [by left | by right |].
  by apply has_item_with_key_panic.
Qed.

Lemma merge_loop_outcome items dst :
  match range_loop (MergeSliceOrDie_item Get equal) items dst with
  | Ok merged =>
      elements dst `prefix_of` elements merged
      ∧ ∀ y, y ∈ elements merged → y ∈ elements dst ∨ y ∈ items
  | Panic msg =>
      ∃ x y, (x ∈ elements dst ∨ x ∈ items) ∧ y ∈ items
             ∧ equal (Get x) (Get y) = Panic msg
  end.
Proof.
  revert dst. induction items as [|x items IH]; intros dst; simpl.
  - split; [done|]. intros y Hy. by left.
  - pose proof (MergeSliceOrDie_item_outcome dst x) as Hitem.
    destruct (MergeSliceOrDie_item Get equal dst x) as [dst'|msg]; simpl.
    + assert (elements dst `prefix_of` elements dst'
              ∧ ∀ y, y ∈ elements dst' → y ∈ elements dst ∨ y = x)
        as [Hprefix Hfrom].
      { destruct Hitem as [-> | ->]; [split; [done|by left]|].
        unfold append. simpl. split; [by apply prefix_app_r|].
        intros y [Hy | ->%list_elem_of_singleton]%elem_of_app; [by left|by right]. }
      specialize (IH dst').
      destruct (range_loop _ items dst') as [merged|msg].
      * destruct IH as [Hprefix' Hfrom']. split; [by etrans|].
        intros y [[Hy | ->]%Hfrom | Hy]%Hfrom'.
        -- by left.
        -- right. by left.
        -- right. by right.
      * destruct IH as (c & y & Hc & Hy & Hpanic).
        exists c, y. split_and!; [|by right|done].
        destruct Hc as [[Hc | ->]%Hfrom | Hc].
        -- by left.
        -- right. by left.
        -- right. by right.
    + destruct Hitem as (c & Hc & Hpanic).
      exists c, x. split_and!; [by left|by left|done].
Qed.

End merge_slice_loops.

Section merge_slice_by_key.
Context {A K : Type} `{!EqDecision K} (Get : A → K) (equal : K → K → result bool).

(** When [==] returns on the keys met and tells whether they are the same,
    the loops compute the closed form. *)
Lemma has_item_with_key_comparable dst x :
  (∀ c, c ∈ dst → equal (Get c) (Get x) = Ok (bool_decide (Get c = Get x))) →
  has_item_with_key Get equal dst x = Ok (key_present Get (Some dst) x).
Proof.
  unfold key_present. simpl.
  induction dst as [|c dst IH]; intros Hequal; simpl; [done|].
  rewrite (Hequal c) by (by left). simpl.
  destruct (bool_decide (Get c = Get x)); simpl; [done|].
  apply IH. intros c' Hc'. apply Hequal. by right.
Qed.

Lemma MergeSliceOrDie_item_comparable dst x :
  (∀ c, c ∈ elements dst →
     equal (Get c) (Get x) = Ok (bool_decide (Get c = Get x))) →
  MergeSliceOrDie_item Get equal dst x = Ok (append_if_new_key Get dst x).
Proof.
  intros Hequal. unfold MergeSliceOrDie_item, append_if_new_key.
  rewrite (has_item_with_key_comparable _ _ Hequal).
  change (key_present Get (Some (elements dst)) x) with (key_present Get dst x).
  by destruct (key_present Get dst x).
Qed.

Lemma merge_loop_comparable items dst :
  (∀ x y, x ∈ elements dst ∨ x ∈ items → y ∈ items →
     equal (Get x) (Get y) = Ok (bool_decide (Get x = Get y))) →
  range_loop (MergeSliceOrDie_item Get equal) items dst
  = Ok (foldl (append_if_new_key Get) dst items).
Proof.
  revert dst. induction items as [|x items IH]; intros dst Hequal; [done|].
  change (range_loop (MergeSliceOrDie_item Get equal) (x :: items) dst)
    with (MergeSliceOrDie_item Get equal dst x
          ≫= range_loop (MergeSliceOrDie_item Get equal) items).
  rewrite MergeSliceOrDie_item_comparable.
  2:{ intros c Hc. apply Hequal; [by left|by left]. }
  cbn [mbind result_bind foldl]. apply IH.
  intros c y Hc Hy. apply Hequal; [|by right].
  destruct Hc as [Hc|Hc]; [|right; by right].
  rewrite append_if_new_key_elements in Hc.
  case_decide; [by left|].
  apply elem_of_app in Hc as [Hc | ->%list_elem_of_singleton]; [by left|].
  right. by left.
Qed.

End merge_slice_by_key.

(** X1.  [MergeSliceOrDie] panics on a nil [dst] pointer.  On a non-nil one
    it panics only where [==] panics on the keys of two items, the second
    one an item of [src]; it does so when the first comparison, of the
    first item of [*dst] with the first item of [src], panics; and it
    returns when [==] returns on the keys of all items.  When it returns,
    the items [*dst] held are still there, at the same positions and in the
    same order, followed by appended items only, and every item of the
    result was in [*dst] or in one of the lists [src]. *)
Theorem MergeSliceOrDie_extends_destination
    {A K : Type} (Get : A → K) (equal : K → K → result bool)
    (slice : option (list A)) (src : list (option (list A))) :
  MergeSliceOrDie Get equal None src = Panic "dst can't be nil"
  ∧ match MergeSliceOrDie Get equal (Some slice) src with
    | Ok merged =>
        elements slice `prefix_of` elements merged
        ∧ ∀ y, y ∈ elements merged →
            y ∈ elements slice ∨ ∃ items, items ∈ src ∧ y ∈ elements items
    | Panic msg =>
        ∃ x y items,
          (x ∈ elements slice ∨ x ∈ concat (elements <$> src))
          ∧ items ∈ src ∧ y ∈ elements items
          ∧ equal (Get x) (Get y) = Panic msg
    end
  ∧ ((∀ x y, x ∈ elements slice ∨ x ∈ concat (elements <$> src) →
        y ∈ concat (elements <$> src) →
        ∃ same, equal (Get x) (Get y) = Ok same) →
     ∃ merged, MergeSliceOrDie Get equal (Some slice) src = Ok merged)
  ∧ (∀ c rest x items more msg,
       equal (Get c) (Get x) = Panic msg →
       MergeSliceOrDie Get equal (Some (Some (c :: rest)))
         (Some (x :: items) :: more) = Panic msg).
Proof.
  unfold MergeSliceOrDie. rewrite MergeSliceOrDie_concat.
  pose proof (merge_loop_outcome Get equal (concat (elements <$> src)) slice)
    as Hloop.
  split_and!.
  - done.
  - destruct (range_loop _ _ slice) as [merged|msg].
    + destruct Hloop as [Hprefix Hfrom]. split; [done|].
      intros y [Hy | Hy]%Hfrom; [by left|]. right.
      apply elem_of_concat in Hy
        as (l & Hy & (items & -> & Hitems)%list_elem_of_fmap).
      by exists items.
    + destruct Hloop as (x & y & Hx & Hy & Hpanic).
      apply elem_of_concat in Hy
        as (l & Hy & (items & -> & Hitems)%list_elem_of_fmap).
      by exists x, y, items.
  - intros Hreturns. destruct (range_loop _ _ slice) as [merged|msg].
    + by exists merged.
    + destruct Hloop as (x & y & Hx & Hy & Hpanic).
      destruct (Hreturns x y Hx Hy) as [same Hsame]. congruence.
  - intros c rest x items more msg Hpanic.
    unfold MergeSliceOrDie_item. cbn. by rewrite Hpanic.
Qed.

(** Keyed by their ports, two containers that both have ports cannot be
    compared, and the call panics. *)
Lemma MergeSliceOrDie_extends_destination_witness :
  MergeSliceOrDie Container.Ports equal_ports (Some (Some [sidecar]))
    [Some [sidecar]]
  = Panic "runtime error: comparing uncomparable type []v1.ContainerPort".
Proof.
  apply (MergeSliceOrDie_extends_destination Container.Ports equal_ports
           None []).
  reflexivity.
Defined.

(** X2.  When [==] returns on the keys of the items of [*dst] and [src] and
    tells whether the two keys are the same, [MergeSliceOrDie] returns and
    keeps keys unique: when no two items of [*dst] have the same key, no
    two items of the result have, and every item of every list of [src]
    has its key in the result (the item itself, or the first item met with
    that key). *)
Theorem MergeSliceOrDie_keys_unique
    {A K : Type} `{!EqDecision K} (Get : A → K) (equal : K → K → result bool)
    (slice : option (list A)) (src : list (option (list A))) :
  (∀ x y, x ∈ elements slice ∨ x ∈ concat (elements <$> src) →
     y ∈ concat (elements <$> src) →
     equal (Get x) (Get y) = Ok (bool_decide (Get x = Get y))) →
  NoDup (Get <$> elements slice) →
  ∃ merged : option (list A),
    MergeSliceOrDie Get equal (Some slice) src = Ok merged
    ∧ NoDup (Get <$> elements merged)
    ∧ ∀ items x, items ∈ src → x ∈ elements items →
        Get x ∈ Get <$> elements merged.
Proof.
  intros Hequal Hslice. eexists. split.
  - unfold MergeSliceOrDie. rewrite MergeSliceOrDie_concat.
    by apply merge_loop_comparable.
  - split; [by apply merge_items_NoDup|].
    intros items x Hitems Hx. apply merge_items_covers.
    apply elem_of_concat. exists (elements items). split; [done|].
    by apply list_elem_of_fmap_2.
Qed.

(** The input of [TestMergeSliceOrDie]: an empty [dst] and the lists
    [test1, test2, test1] and [test1, test3]. *)
Lemma MergeSliceOrDie_keys_unique_witness :
  ∃ merged : option (list EnvFromSource.t),
    MergeSliceOrDie config_map_name equal_names (Some (Some []))
      [ Some [config_map_ref "test1"; config_map_ref "test2"; config_map_ref "test1"];
        Some [config_map_ref "test1"; config_map_ref "test3"] ]
    = Ok merged
    ∧ NoDup (config_map_name <$> elements merged)
    ∧ merged = Some [config_map_ref "test1"; config_map_ref "test2";
                     config_map_ref "test3"].
Proof.
  destruct (MergeSliceOrDie_keys_unique config_map_name equal_names (Some [])
              [ Some [config_map_ref "test1"; config_map_ref "test2";
                      config_map_ref "test1"];
                Some [config_map_ref "test1"; config_map_ref "test3"] ]
              (λ x y _ _, eq_refl) NoDup_nil_2)
    as (merged & Hcall & Hnodup & _).
  exists merged. split_and!; [exact Hcall | exact Hnodup |].
  injection Hcall as <-. reflexivity.
Defined.

(** X3.  When [==] returns on the keys of the items of [*dst] and [src] and
    tells whether the two keys are the same, a second call of
    [MergeSliceOrDie] with the same lists appends nothing: the result of
    the first call is returned again. *)
Theorem MergeSliceOrDie_idempotent
    {A K : Type} `{!EqDecision K} (Get : A → K) (equal : K → K → result bool)
    (slice merged : option (list A)) (src : list (option (list A))) :
  (∀ x y, x ∈ elements slice ∨ x ∈ concat (elements <$> src) →
     y ∈ concat (elements <$> src) →
     equal (Get x) (Get y) = Ok (bool_decide (Get x = Get y))) →
  MergeSliceOrDie Get equal (Some slice) src = Ok merged →
  MergeSliceOrDie Get equal (Some merged) src = Ok merged.
Proof.
  unfold MergeSliceOrDie. rewrite !MergeSliceOrDie_concat. intros Hequal.
  rewrite (merge_loop_comparable Get equal _ slice Hequal). intros [= <-].
  rewrite merge_loop_comparable.
  - f_equal. apply merge_items_absorbed.
    intros x Hx. by apply merge_items_covers.
  - intros x y [[Hx | Hx]%merge_items_provenance | Hx] Hy; apply Hequal; auto.
Qed.

Lemma MergeSliceOrDie_idempotent_witness :
  MergeSliceOrDie config_map_name equal_names
    (Some (Some [config_map_ref "test1"; config_map_ref "test2"]))
    [ Some [config_map_ref "test2"; config_map_ref "test1"] ]
  = Ok (Some [config_map_ref "test1"; config_map_ref "test2"]).
Proof.
  apply (MergeSliceOrDie_idempotent config_map_name equal_names
           (Some [config_map_ref "test1"])).
  - intros x y _ _. reflexivity.
  - reflexivity.
Defined.

(** ** Lists merged by equality: [WithEnv] and [WithEnvFrom] *)

Lemma append_if_absent_item {A} `{!EqDecision A} (dst : option (list A)) x :
  append_if_absent dst x = append_if_new_key id dst x.
Proof.
  unfold append_if_absent, append_if_new_key, Contains.
  destruct (key_present id dst x) eqn:Hhas.
  - apply key_present_elem_of in Hhas. rewrite list_fmap_id in Hhas.
    by rewrite bool_decide_true.
  - rewrite bool_decide_false; [done|]. intros Hin.
    assert (key_present id dst x = true); [|congruence].
    apply key_present_elem_of. by rewrite list_fmap_id.
Qed.

Lemma foldl_append_if_absent {A} `{!EqDecision A} (dst : option (list A)) l :
  foldl append_if_absent dst l = foldl (append_if_new_key id) dst l.
Proof.
  revert dst. induction l as [|x l IH]; intros dst; simpl; [done|].
  by rewrite append_if_absent_item, IH.
Qed.

(** What the loop makes of a non-nil destination [dst] and new values [l]. *)
Lemma foldl_append_if_absent_spec {A} `{!EqDecision A} (dst l : list A) :
  ∃ merged,
    foldl append_if_absent (Some dst) l = Some merged
    ∧ dst `prefix_of` merged
    ∧ (∀ e, e ∈ merged ↔ e ∈ dst ∨ e ∈ l)
    ∧ (NoDup dst → NoDup merged)
    ∧ foldl append_if_absent (Some merged) l = Some merged.
Proof.
  rewrite foldl_append_if_absent.
  pose proof (merge_items_prefix id (Some dst) l) as Hprefix.
  destruct (foldl (append_if_new_key id) (Some dst) l) as [merged|] eqn:Hfold.
  2:{ simpl in Hprefix. apply prefix_nil_inv in Hprefix. subst dst.
      destruct l as [|x l]; [done|]. simpl in Hfold.
      pose proof (merge_items_prefix id (append_if_new_key id (Some []) x) l)
        as Hp. rewrite Hfold in Hp. by apply prefix_nil_inv in Hp. }
  simpl in Hprefix. exists merged. split_and!; [done | done | | |].
  - intros e. split.
    + intros He. by apply (merge_items_provenance id (Some dst) l); rewrite Hfold.
    + intros [He | He].
      * destruct Hprefix as [tail ->]. apply elem_of_app. by left.
      * pose proof (merge_items_covers id (Some dst) l e He) as Hc.
        by rewrite Hfold, list_fmap_id in Hc.
  - intros Hdst.
    pose proof (merge_items_NoDup id (Some dst) l) as Hn.
    rewrite Hfold, !list_fmap_id in Hn. by apply Hn.
  - rewrite foldl_append_if_absent. apply merge_items_absorbed.
    intros x Hx. rewrite <- Hfold. by apply merge_items_covers.
Qed.

Lemma WithEnv_merge envs opts h dst :
  Container.Env (container h) = Some dst →
  policy_of opts = Some DeepMerge →
  WithEnv envs opts h =
    Ok (update (Container.set_Env
                  (foldl append_if_absent (Some dst) (elements envs))) h).
Proof.
  intros Hdst (Ho & Hd & Hm)%merge_policy_only.
  unfold WithEnv. rewrite Hdst, Ho, Hd, Hm. simpl.
  unfold update. by rewrite Hdst.
Qed.

Lemma WithEnvFrom_merge envFroms opts h dst :
  Container.EnvFrom (container h) = Some dst →
  policy_of opts = Some DeepMerge →
  WithEnvFrom envFroms opts h =
    Ok (update (Container.set_EnvFrom
                  (foldl append_if_absent (Some dst) (elements envFroms))) h).
Proof.
  intros Hdst (Ho & Hd & Hm)%merge_policy_only.
  unfold WithEnvFrom. rewrite Hdst, Ho, Hd, Hm. simpl.
  unfold update. by rewrite Hdst.
Qed.

(** X4.  [WithEnv] with the Merge option on a non-nil destination never
    panics.  It keeps the variables of the destination in place and appends
    the new variables that are not there yet, compared as whole values: the
    result holds exactly the variables of either list, without repetition
    when the destination had none; a variable that differs from an existing
    one in its value only is appended beside it.  Repeating the call changes
    nothing. *)
Theorem WithEnv_merge_appends_absent
    (envs : option (list EnvVar.t)) (opts : list WithOption)
    (h : ContainerBuilderDefault) (dst : list EnvVar.t) :
  Container.Env (container h) = Some dst →
  policy_of opts = Some DeepMerge →
  ∃ merged : list EnvVar.t,
    WithEnv envs opts h = Ok (update (Container.set_Env (Some merged)) h)
    ∧ dst `prefix_of` merged
    ∧ (∀ e, e ∈ merged ↔ e ∈ dst ∨ e ∈ elements envs)
    ∧ (NoDup dst → NoDup merged)
    ∧ WithEnv envs opts (update (Container.set_Env (Some merged)) h)
      = Ok (update (Container.set_Env (Some merged)) h).
Proof.
  intros Hdst Hpolicy.
  destruct (foldl_append_if_absent_spec dst (elements envs))
    as (merged & Hfold & Hprefix & Hmem & Hnodup & Hagain).
  exists merged. rewrite (WithEnv_merge _ _ _ dst), Hfold by done.
  split_and!; [done..|].
  rewrite (WithEnv_merge _ _ _ merged), Hagain by done.
  by destruct h.
Qed.

Lemma WithEnv_merge_appends_absent_witness :
  WithEnv (Some [EnvVar.mk "LOG" "debug"; EnvVar.mk "LOG" "info"]) [Merge]
    (with_env [EnvVar.mk "LOG" "info"])
  = Ok (with_env [EnvVar.mk "LOG" "info"; EnvVar.mk "LOG" "debug"]).
Proof.
  destruct (WithEnv_merge_appends_absent
              (Some [EnvVar.mk "LOG" "debug"; EnvVar.mk "LOG" "info"]) [Merge]
              (with_env [EnvVar.mk "LOG" "info"]) [EnvVar.mk "LOG" "info"]
              eq_refl eq_refl) as (merged & Hcall & _).
  rewrite Hcall. vm_compute in Hcall. injection Hcall as <-. reflexivity.
Defined.

(** X5.  [WithEnvFrom] with the Merge option on a non-nil destination
    behaves the same way on sources: the destination is kept in place, the
    new sources that are not in it are appended, no source is repeated when
    none was, and repeating the call changes nothing. *)
Theorem WithEnvFrom_merge_appends_absent
    (envFroms : option (list EnvFromSource.t)) (opts : list WithOption)
    (h : ContainerBuilderDefault) (dst : list EnvFromSource.t) :
  Container.EnvFrom (container h) = Some dst →
  policy_of opts = Some DeepMerge →
  ∃ merged : list EnvFromSource.t,
    WithEnvFrom envFroms opts h
      = Ok (update (Container.set_EnvFrom (Some merged)) h)
    ∧ dst `prefix_of` merged
    ∧ (∀ e, e ∈ merged ↔ e ∈ dst ∨ e ∈ elements envFroms)
    ∧ (NoDup dst → NoDup merged)
    ∧ WithEnvFrom envFroms opts (update (Container.set_EnvFrom (Some merged)) h)
      = Ok (update (Container.set_EnvFrom (Some merged)) h).
Proof.
  intros Hdst Hpolicy.
  destruct (foldl_append_if_absent_spec dst (elements envFroms))
    as (merged & Hfold & Hprefix & Hmem & Hnodup & Hagain).
  exists merged. rewrite (WithEnvFrom_merge _ _ _ dst), Hfold by done.
  split_and!; [done..|].
  rewrite (WithEnvFrom_merge _ _ _ merged), Hagain by done.
  by destruct h.
Qed.

Lemma WithEnvFrom_merge_appends_absent_witness :
  WithEnvFrom (Some [config_map_ref "test2"; config_map_ref "test1"]) [Merge]
    (update (Container.set_EnvFrom (Some [config_map_ref "test1"]))
       NewContainerBuilder)
  = Ok (update (Container.set_EnvFrom
                  (Some [config_map_ref "test1"; config_map_ref "test2"]))
          NewContainerBuilder).
Proof.
  destruct (WithEnvFrom_merge_appends_absent
              (Some [config_map_ref "test2"; config_map_ref "test1"]) [Merge]
              (update (Container.set_EnvFrom (Some [config_map_ref "test1"]))
                 NewContainerBuilder)
              [config_map_ref "test1"] eq_refl eq_refl) as (merged & Hcall & _).
  rewrite Hcall. vm_compute in Hcall. injection Hcall as <-. reflexivity.
Defined.

(** ** More on the Collection Reconciler *)

Section reconciler_algebra.
Context {A K : Type} `{!EqDecision K} (key : A → K) (same : A → A → bool).
Hypothesis same_key : ∀ x o, same x o = bool_decide (key x = key o).

Lemma reconcile_keys_elem_of dst new k :
  k ∈ key <$> reconcile same dst new ↔ k ∈ key <$> dst ∨ k ∈ key <$> new.
Proof.
  induction new as [|x new IH] using rev_ind.
  - simpl. rewrite elem_of_nil. tauto.
  - rewrite reconcile_snoc, (reconcile_entry_keys key same same_key).
    rewrite fmap_app, (elem_of_app (key <$> new)). simpl.
    rewrite list_elem_of_singleton.
    case_decide as Hx.
    + rewrite IH. split; [tauto|]. intros [?|[?| ->]]; [tauto..|].
      by apply IH.
    + rewrite elem_of_app, list_elem_of_singleton, IH. tauto.
Qed.

Lemma reconcile_keys_NoDup dst new :
  NoDup (key <$> dst) → NoDup (key <$> reconcile same dst new).
Proof.
  intros Hdst. induction new as [|x new IH] using rev_ind; [done|].
  rewrite reconcile_snoc, (reconcile_entry_keys key same same_key).
  case_decide; [done|].
  apply NoDup_app. split_and!; [done| |apply NoDup_singleton].
  by intros k Hk ->%list_elem_of_singleton.
Qed.

Lemma reconcile_length_le dst new :
  (length (reconcile same dst new) ≤ length dst + length new)%nat.
Proof.
  induction new as [|x new IH] using rev_ind; [simpl; lia|].
  rewrite reconcile_snoc, length_app. simpl.
  pose proof (f_equal length (reconcile_entry_keys key same same_key
                                (reconcile same dst new) x)) as Hlen.
  rewrite length_fmap in Hlen. rewrite Hlen.
  case_decide; rewrite ?length_app, !length_fmap; simpl; lia.
Qed.

Lemma reconcile_app dst new1 new2 :
  reconcile same dst (new1 ++ new2) = reconcile same (reconcile same dst new1) new2.
Proof. unfold reconcile. by rewrite foldl_app. Qed.

(** Searching for the identity of [x] sees identities only. *)
Lemma list_find_same_congr x y l :
  key x = key y →
  list_find (λ o, same x o) l = list_find (λ o, same y o) l.
Proof.
  intros Hxy. apply list_find_ext. intros o.
  by rewrite !same_key, Hxy.
Qed.

Lemma list_find_insert_other x e l j :
  key e ≠ key x →
  (∀ d, l !! j = Some d → key d ≠ key x) →
  list_find (λ o, same x o) (<[j:=e]> l) = list_find (λ o, same x o) l.
Proof.
  intros He. revert j. induction l as [|a l IH]; intros [|j] Hj; simpl; [done..| |].
  - rewrite !decide_False; [done| |].
    + intros Ha%Is_true_eq_true. rewrite same_key in Ha.
      apply bool_decide_eq_true in Ha. by apply (Hj a).
    + intros Ha%Is_true_eq_true. rewrite same_key in Ha.
      apply bool_decide_eq_true in Ha. by apply He.
  - by rewrite (IH j) by done.
Qed.

Lemma list_find_insert_same x e l k d :
  list_find (λ o, same x o) l = Some (k, d) → key e = key x →
  list_find (λ o, same x o) (<[k:=e]> l) = Some (k, e).
Proof.
  intros (Hk & Hd & Hfirst)%list_find_Some He.
  apply list_find_Some. split_and!.
  - apply list_lookup_insert_eq. by eapply lookup_lt_Some.
  - apply Is_true_eq_left. rewrite same_key. by apply bool_decide_eq_true.
  - intros j z Hj Hlt. rewrite list_lookup_insert_ne in Hj by lia.
    by apply (Hfirst j).
Qed.

(** Two entries of one identity: the later replaces the earlier. *)
Lemma reconcile_entry_overwrites x y l :
  key x = key y →
  reconcile_entry same (reconcile_entry same l x) y = reconcile_entry same l y.
Proof.
  intros Hxy. unfold reconcile_entry at 2 3.
  rewrite <- (list_find_same_congr x y l Hxy).
  destruct (list_find (λ o, same x o) l) as [[k d]|] eqn:Hfind.
  - unfold reconcile_entry.
    rewrite <- (list_find_same_congr x y _ Hxy).
    rewrite (list_find_insert_same x x l k d) by done.
    apply list_insert_insert_eq.
  - unfold reconcile_entry.
    rewrite <- (list_find_same_congr x y _ Hxy).
    rewrite list_find_app_r by done. simpl.
    rewrite decide_True.
    2:{ apply Is_true_eq_left. rewrite same_key. by apply bool_decide_eq_true. }
    simpl. rewrite insert_app_r_alt by lia. by rewrite Nat.sub_diag.
Qed.

(** Two entries of different identities, the first of which is in the
    list: the order of the two steps does not matter. *)
Lemma reconcile_entry_commute x y l :
  key x ≠ key y → key x ∈ key <$> l →
  reconcile_entry same (reconcile_entry same l y) x
  = reconcile_entry same (reconcile_entry same l x) y.
Proof.
  intros Hxy Hx.
  destruct (list_find (λ o, same x o) l) as [[k d]|] eqn:Hfindx.
  2:{ by apply (list_find_same_None key same same_key) in Hfindx. }
  pose proof (list_find_same_Some key same same_key _ _ _ _ Hfindx)
    as (Hk & Hd & _).
  unfold reconcile_entry at 2 4. rewrite Hfindx.
  destruct (list_find (λ o, same y o) l) as [[j e]|] eqn:Hfindy.
  - pose proof (list_find_same_Some key same same_key _ _ _ _ Hfindy)
      as (Hj & He & _).
    assert (j ≠ k) as Hjk by (intros ->; congruence).
    unfold reconcile_entry.
    rewrite (list_find_insert_other x y l j), Hfindx; [|done|].
    2:{ intros d' Hd'. rewrite Hj in Hd'. injection Hd' as <-. congruence. }
    rewrite (list_find_insert_other y x l k), Hfindy; [|done|].
    2:{ intros d' Hd'. rewrite Hk in Hd'. injection Hd' as <-. congruence. }
    by apply list_insert_insert_ne.
  - unfold reconcile_entry.
    rewrite (list_find_app_l _ _ _ _ _ Hfindx).
    rewrite (list_find_insert_other y x l k), Hfindy; [|done|].
    2:{ intros d' Hd'. rewrite Hk in Hd'. injection Hd' as <-. congruence. }
    apply insert_app_l. by eapply lookup_lt_Some.
Qed.

Lemma reconcile_keys_mono dst new k :
  k ∈ key <$> dst → k ∈ key <$> reconcile same dst new.
Proof. intros Hk. apply reconcile_keys_elem_of. by left. Qed.

Lemma reconcile_entry_app_known l x y :
  key y ∈ key <$> l →
  reconcile_entry same (l ++ [x]) y = reconcile_entry same l y ++ [x].
Proof.
  intros Hy. unfold reconcile_entry.
  destruct (list_find (λ o, same y o) l) as [[k d]|] eqn:Hfind.
  2:{ by apply (list_find_same_None key same same_key) in Hfind. }
  rewrite (list_find_app_l _ _ _ _ _ Hfind).
  apply insert_app_l. apply list_find_Some in Hfind as (Hk & _).
  by eapply lookup_lt_Some.
Qed.

Lemma reconcile_app_known l x ys :
  (∀ y, y ∈ ys → key y ∈ key <$> l) →
  reconcile same (l ++ [x]) ys = reconcile same l ys ++ [x].
Proof.
  induction ys as [|y ys IH] using rev_ind; intros Hys; [done|].
  rewrite !reconcile_snoc, IH.
  - apply reconcile_entry_app_known, reconcile_keys_mono, Hys.
    apply elem_of_app. right. by apply list_elem_of_singleton.
  - intros y' Hy'. apply Hys, elem_of_app. by left.
Qed.

Lemma reconcile_entry_absorbs x m ys :
  key x ∈ key <$> m →
  reconcile_entry same (reconcile same (reconcile_entry same m x) ys) x
  = reconcile_entry same (reconcile same m ys) x.
Proof.
  intros Hx. induction ys as [|y ys IH] using rev_ind.
  - simpl. by apply reconcile_entry_overwrites.
  - rewrite !reconcile_snoc.
    destruct (decide (key x = key y)) as [Hxy|Hxy].
    + rewrite !(reconcile_entry_overwrites y x) by done. apply IH.
    + rewrite (reconcile_entry_commute x y), IH.
      * symmetry. apply reconcile_entry_commute; [done|].
        by apply reconcile_keys_mono.
      * done.
      * apply reconcile_keys_mono.
        rewrite (reconcile_entry_keys key same same_key).
        by rewrite decide_True.
Qed.

(** Reconciling the same new list a second time changes nothing. *)
Lemma reconcile_idempotent dst new :
  reconcile same (reconcile same dst new) new = reconcile same dst new.
Proof.
  induction new as [|x new IH] using rev_ind; [done|].
  rewrite !reconcile_snoc.
  set (a := reconcile same dst new) in *.
  destruct (decide (key x ∈ key <$> a)) as [Hx|Hx].
  - by rewrite reconcile_entry_absorbs, IH.
  - assert (reconcile_entry same a x = a ++ [x]) as Hstep.
    { unfold reconcile_entry.
      by rewrite (proj2 (list_find_same_None key same same_key x a) Hx). }
    rewrite Hstep, reconcile_app_known, IH.
    + rewrite <- Hstep. by apply reconcile_entry_overwrites.
    + intros y Hy. apply reconcile_keys_elem_of. right.
      by apply list_elem_of_fmap_2.
Qed.

End reconciler_algebra.

(** ** [WithPort] and [WithVolumeMount] with the Merge option *)

(** X6.  [WithPort] with the Merge option on a non-nil destination: the
    container ports of the result are those of the destination and of the
    new list together; when the destination has no two entries with the
    same container port, neither has the result; and the result is at least
    as long as the destination and at most as long as both lists
    together. *)
Theorem WithPort_merge_identities
    (ports : option (list ContainerPort.t)) (opts : list WithOption)
    (h : ContainerBuilderDefault) (dst : list ContainerPort.t) :
  Container.Ports (container h) = Some dst →
  policy_of opts = Some DeepMerge →
  ∃ merged : list ContainerPort.t,
    WithPort ports opts h = Ok (update (Container.set_Ports (Some merged)) h)
    ∧ (∀ p : Z, p ∈ ContainerPort.ContainerPort <$> merged ↔
         p ∈ ContainerPort.ContainerPort <$> dst
         ∨ p ∈ ContainerPort.ContainerPort <$> elements ports)
    ∧ (NoDup (ContainerPort.ContainerPort <$> dst) →
       NoDup (ContainerPort.ContainerPort <$> merged))
    ∧ (length dst ≤ length merged ≤ length dst + length (elements ports))%nat.
Proof.
  intros Hdst Hpolicy. eexists. split; [by apply WithPort_merge|].
  split_and!.
  - intros p. by apply reconcile_keys_elem_of.
  - by apply reconcile_keys_NoDup.
  - by apply (reconcile_length_ge ContainerPort.ContainerPort).
  - by apply (reconcile_length_le ContainerPort.ContainerPort).
Qed.

Lemma WithPort_merge_identities_witness :
  ∃ merged : list ContainerPort.t,
    WithPort (Some [port_entry 80 8080; port_entry 443 8443; port_entry 80 9090])
      [Merge] (with_ports [port_entry 80 80])
    = Ok (with_ports merged)
    ∧ NoDup (ContainerPort.ContainerPort <$> merged)
    ∧ (length merged ≤ 4)%nat.
Proof.
  destruct (WithPort_merge_identities
              (Some [port_entry 80 8080; port_entry 443 8443; port_entry 80 9090])
              [Merge] (with_ports [port_entry 80 80]) [port_entry 80 80]
              eq_refl eq_refl) as (merged & Hcall & _ & Hnodup & _ & Hlen).
  exists merged. split_and!.
  - exact Hcall.
  - apply Hnodup. apply NoDup_singleton.
  - exact Hlen.
Defined.

(** X7.  [WithPort] with the Merge option is idempotent on a non-nil
    destination: it does not panic, and the same call on its result returns
    that result again, also when identities repeat in either list. *)
Theorem WithPort_merge_idempotent
    (ports : option (list ContainerPort.t)) (opts : list WithOption)
    (h : ContainerBuilderDefault) (dst : list ContainerPort.t) :
  Container.Ports (container h) = Some dst →
  policy_of opts = Some DeepMerge →
  ∃ h' : ContainerBuilderDefault,
    WithPort ports opts h = Ok h' ∧ WithPort ports opts h' = Ok h'.
Proof.
  intros Hdst Hpolicy. eexists. split; [by apply WithPort_merge|].
  rewrite (WithPort_merge _ _ _ (reconcile same_port dst (elements ports)))
    by done.
  rewrite (reconcile_idempotent ContainerPort.ContainerPort) by done.
  by destruct h.
Qed.

Lemma WithPort_merge_idempotent_witness :
  ∃ h' : ContainerBuilderDefault,
    WithPort (Some [port_entry 80 8080; port_entry 80 9090]) [Merge]
      (with_ports [port_entry 80 80; port_entry 80 81]) = Ok h'
    ∧ WithPort (Some [port_entry 80 8080; port_entry 80 9090]) [Merge] h' = Ok h'.
Proof.
  exact (WithPort_merge_idempotent
           (Some [port_entry 80 8080; port_entry 80 9090]) [Merge]
           (with_ports [port_entry 80 80; port_entry 80 81])
           [port_entry 80 80; port_entry 80 81] eq_refl eq_refl).
Defined.

(** X8.  Merging two lists of ports one call after the other gives what one
    call with their concatenation gives. *)
Theorem WithPort_merge_in_two_calls
    (first second : option (list ContainerPort.t)) (opts : list WithOption)
    (h : ContainerBuilderDefault) (dst : list ContainerPort.t) :
  Container.Ports (container h) = Some dst →
  policy_of opts = Some DeepMerge →
  WithPort first opts h ≫= WithPort second opts
  = WithPort (Some (elements first ++ elements second)) opts h.
Proof.
  intros Hdst Hpolicy.
  rewrite (WithPort_merge first _ _ dst) by done. simpl.
  rewrite (WithPort_merge second _ _ (reconcile same_port dst (elements first)))
    by done.
  rewrite (WithPort_merge (Some _) _ _ dst) by done. simpl.
  rewrite (reconcile_app same_port). by destruct h.
Qed.

Lemma WithPort_merge_in_two_calls_witness :
  WithPort (Some [port_entry 80 8080]) [Merge] (with_ports [port_entry 80 80])
    ≫= WithPort (Some [port_entry 443 8443]) [Merge]
  = WithPort (Some [port_entry 80 8080; port_entry 443 8443]) [Merge]
      (with_ports [port_entry 80 80]).
Proof.
  exact (WithPort_merge_in_two_calls
           (Some [port_entry 80 8080]) (Some [port_entry 443 8443]) [Merge]
           (with_ports [port_entry 80 80]) [port_entry 80 80] eq_refl eq_refl).
Defined.

(** X9.  [WithVolumeMount] with the Merge option on a non-nil destination
    identifies a mount by its mount path and sub path together: the
    identities of the result are those of both lists, they stay unique when
    they were unique in the destination, the destination's mounts whose
    identity is not in the new list are where they were, and repeating the
    call changes nothing. *)
Theorem WithVolumeMount_merge_identities
    (volumeMounts : option (list VolumeMount.t)) (opts : list WithOption)
    (h : ContainerBuilderDefault) (dst : list VolumeMount.t) :
  Container.VolumeMounts (container h) = Some dst →
  policy_of opts = Some DeepMerge →
  ∃ merged : list VolumeMount.t,
    WithVolumeMount volumeMounts opts h
      = Ok (update (Container.set_VolumeMounts (Some merged)) h)
    ∧ (∀ path sub : string,
         (path, sub) ∈ mount_key <$> merged ↔
         (path, sub) ∈ mount_key <$> dst
         ∨ (path, sub) ∈ mount_key <$> elements volumeMounts)
    ∧ (NoDup (mount_key <$> dst) → NoDup (mount_key <$> merged))
    ∧ (∀ k d, dst !! k = Some d →
         mount_key d ∉ mount_key <$> elements volumeMounts →
         merged !! k = Some d)
    ∧ WithVolumeMount volumeMounts opts
        (update (Container.set_VolumeMounts (Some merged)) h)
      = Ok (update (Container.set_VolumeMounts (Some merged)) h).
Proof.
  intros Hdst Hpolicy. eexists. split; [by apply WithVolumeMount_merge|].
  split_and!.
  - intros path sub. apply reconcile_keys_elem_of, same_mount_key.
  - apply reconcile_keys_NoDup, same_mount_key.
  - intros k d. apply reconcile_untouched, same_mount_key.
  - rewrite (WithVolumeMount_merge _ _ _
               (reconcile same_mount dst (elements volumeMounts))) by done.
    rewrite (reconcile_idempotent mount_key) by apply same_mount_key.
    by destruct h.
Qed.

Lemma WithVolumeMount_merge_identities_witness :
  WithVolumeMount (Some [data_mount "cache"]) [Merge] (with_mounts [data_mount "data"])
  = Ok (with_mounts [data_mount "cache"]).
Proof.
  destruct (WithVolumeMount_merge_identities (Some [data_mount "cache"]) [Merge]
              (with_mounts [data_mount "data"]) [data_mount "data"]
              eq_refl eq_refl) as (merged & Hcall & _).
  rewrite Hcall. vm_compute in Hcall. injection Hcall as <-. reflexivity.
Defined.

(** ** Options that make a setter panic or do nothing *)

Lemma replace_if_unset_only opts :
  policy_of opts = Some ReplaceIfUnset →
  IsOverwrite opts = false ∧ IsOverwriteIfDefaultValue opts = true
  ∧ IsMerge opts = false.
Proof. unfold policy_of. policy_cases opts. Qed.

Lemma unknown_token_no_policy (o : WithOption) rest :
  o ≠ Overwrite → o ≠ OverwriteIfDefaultValue → o ≠ Merge →
  IsOverwrite (o :: rest) = false
  ∧ IsOverwriteIfDefaultValue (o :: rest) = false
  ∧ IsMerge (o :: rest) = false.
Proof.
  intros. rewrite IsOverwrite_cons, IsOverwriteIfDefaultValue_cons, IsMerge_cons.
  by rewrite !bool_decide_false.
Qed.

(** X10.  With [OverwriteIfDefaultValue] as first option every list setter
    of the container builder panics on a non-nil destination, empty or
    not: the test of the default value calls [reflect.Value.Elem] on the
    slice.  On a nil destination the copy of the argument is stored. *)
Theorem list_setters_panic_if_unset
    (opts : list WithOption) (h : ContainerBuilderDefault)
    (envs : option (list EnvVar.t)) (envFroms : option (list EnvFromSource.t))
    (ports : option (list ContainerPort.t))
    (volumeMounts : option (list VolumeMount.t)) :
  policy_of opts = Some ReplaceIfUnset →
  WithEnv envs opts h =
    (if Container.Env (container h) is Some _ then Panic Elem_on_slice
     else Ok (update (Container.set_Env (Some (elements envs))) h))
  ∧ WithEnvFrom envFroms opts h =
    (if Container.EnvFrom (container h) is Some _ then Panic Elem_on_slice
     else Ok (update (Container.set_EnvFrom (Some (elements envFroms))) h))
  ∧ WithPort ports opts h =
    (if Container.Ports (container h) is Some _ then Panic Elem_on_slice
     else Ok (update (Container.set_Ports (Some (elements ports))) h))
  ∧ WithVolumeMount volumeMounts opts h =
    (if Container.VolumeMounts (container h) is Some _ then Panic Elem_on_slice
     else Ok (update (Container.set_VolumeMounts (Some (elements volumeMounts))) h)).
Proof.
  intros (Ho & Hd & Hm)%replace_if_unset_only.
  unfold WithEnv, WithEnvFrom, WithPort, WithVolumeMount.
  rewrite Ho, Hd.
  split_and!; by destruct (_ (container h)).
Qed.

Lemma list_setters_panic_if_unset_witness :
  WithPort (Some [port_entry 80 8080]) [OverwriteIfDefaultValue] (with_ports [])
    = Panic Elem_on_slice
  ∧ WithPort (Some [port_entry 80 8080]) [OverwriteIfDefaultValue] NewContainerBuilder
    = Ok (with_ports [port_entry 80 8080]).
Proof.
  split.
  - apply (list_setters_panic_if_unset [OverwriteIfDefaultValue] (with_ports [])
             None None (Some [port_entry 80 8080]) None eq_refl).
  - apply (list_setters_panic_if_unset [OverwriteIfDefaultValue] NewContainerBuilder
             None None (Some [port_entry 80 8080]) None eq_refl).
Defined.

(** X11.  The same holds of the pod template builder: with
    [OverwriteIfDefaultValue] as first option the map setters and
    [WithImagePullSecrets] panic on a non-nil destination, where
    [reflect.Value.Elem] meets a map or a slice; on a nil destination the
    map setters store their argument and [WithImagePullSecrets] stores
    nil. *)
Theorem template_setters_panic_if_unset
    (opts : list WithOption) (h : PodTemplateBuilderDefault)
    (new : option (gmap string string))
    (ips : option (list LocalObjectReference.t)) :
  policy_of opts = Some ReplaceIfUnset →
  WithLabels new opts h =
    (if PodTemplateSpec.Labels (podTemplate h) is Some _ then Panic Elem_on_map
     else Ok (update_template (PodTemplateSpec.set_Labels new) h))
  ∧ WithAnnotations new opts h =
    (if PodTemplateSpec.Annotations (podTemplate h) is Some _ then Panic Elem_on_map
     else Ok (update_template (PodTemplateSpec.set_Annotations new) h))
  ∧ WithNodeSelector new opts h =
    (if PodSpec.NodeSelector (spec h) is Some _ then Panic Elem_on_map
     else Ok (update_spec (PodSpec.set_NodeSelector new) h))
  ∧ WithImagePullSecrets ips opts h =
    (if PodSpec.ImagePullSecrets (spec h) is Some _ then Panic Elem_on_slice
     else Ok (update_spec (PodSpec.set_ImagePullSecrets None) h)).
Proof.
  intros (Ho & Hd & Hm)%replace_if_unset_only.
  unfold WithLabels, WithAnnotations, WithNodeSelector, with_string_map,
    WithImagePullSecrets.
  rewrite Ho, Hd.
  split_and!.
  - by destruct (PodTemplateSpec.Labels (podTemplate h)).
  - by destruct (PodTemplateSpec.Annotations (podTemplate h)).
  - by destruct (PodSpec.NodeSelector (spec h)).
  - by destruct (PodSpec.ImagePullSecrets (spec h)).
Qed.

Lemma template_setters_panic_if_unset_witness :
  WithLabels (Some labels_x2_y3) [OverwriteIfDefaultValue] (labelled labels_x1)
  = Panic Elem_on_map.
Proof.
  apply (template_setters_panic_if_unset [OverwriteIfDefaultValue]
           (labelled labels_x1) (Some labels_x2_y3) None eq_refl).
Defined.

Section container_options.
Context `{!StrategicMerge ResourceRequirements.t}.
Context `{!StrategicMerge SecurityContext.t}.
Context `{!StrategicMerge Container.t}.

(** X12.  A first option that is none of the three constants switches every
    setter of the container builder off once its field is set: the list
    setters on a non-nil list, [WithSecurityContext] on a non-nil context,
    [WithImage] and [WithImagePullPolicy] on a non-empty string, and
    [WithResource] and [WithContainer] always, return the builder as it
    was and do not panic. *)
Theorem unknown_option_leaves_container
    (o : WithOption) (rest : list WithOption) (h : ContainerBuilderDefault)
    (envs : option (list EnvVar.t)) (envFroms : option (list EnvFromSource.t))
    (ports : option (list ContainerPort.t))
    (volumeMounts : option (list VolumeMount.t))
    (resources : option ResourceRequirements.t)
    (sc : option SecurityContext.t) (new : option Container.t)
    (image pullPolicy : string) :
  o ≠ Overwrite → o ≠ OverwriteIfDefaultValue → o ≠ Merge →
  (Container.Env (container h) ≠ None → WithEnv envs (o :: rest) h = Ok h)
  ∧ (Container.EnvFrom (container h) ≠ None →
     WithEnvFrom envFroms (o :: rest) h = Ok h)
  ∧ (Container.Ports (container h) ≠ None → WithPort ports (o :: rest) h = Ok h)
  ∧ (Container.VolumeMounts (container h) ≠ None →
     WithVolumeMount volumeMounts (o :: rest) h = Ok h)
  ∧ (Container.SecurityContext (container h) ≠ None →
     WithSecurityContext sc (o :: rest) h = Ok h)
  ∧ (Container.Image (container h) ≠ "" → WithImage image (o :: rest) h = h)
  ∧ (Container.ImagePullPolicy (container h) ≠ "" →
     WithImagePullPolicy pullPolicy (o :: rest) h = h)
  ∧ WithResource resources (o :: rest) h = Ok h
  ∧ WithContainer new (o :: rest) h = Ok h.
Proof.
  intros H1 H2 H3.
  destruct (unknown_token_no_policy o rest H1 H2 H3) as (Ho & Hd & Hm).
  unfold WithEnv, WithEnvFrom, WithPort, WithVolumeMount, WithSecurityContext,
    WithImage, WithImagePullPolicy, WithResource, WithContainer.
  rewrite Ho, Hd, Hm. simpl.
  split_and!.
  - by destruct (Container.Env (container h)).
  - by destruct (Container.EnvFrom (container h)).
  - by destruct (Container.Ports (container h)).
  - by destruct (Container.VolumeMounts (container h)).
  - by destruct (Container.SecurityContext (container h)).
  - intros Himage. by rewrite bool_decide_false.
  - intros Hpolicy. by rewrite bool_decide_false.
  - by destruct resources.
  - by destruct new.
Qed.

(** X13.  A setter of the container builder that names one field writes no
    other: when the call returns, putting the old value of the field back
    into the new container gives the old container. *)
Theorem container_setters_write_one_field
    (opts : list WithOption) (h : ContainerBuilderDefault)
    (envs : option (list EnvVar.t)) (envFroms : option (list EnvFromSource.t))
    (ports : option (list ContainerPort.t))
    (volumeMounts : option (list VolumeMount.t))
    (resources : option ResourceRequirements.t)
    (sc : option SecurityContext.t) (image pullPolicy : string) :
  (∀ h', WithEnv envs opts h = Ok h' →
     Container.set_Env (Container.Env (container h)) (container h') = container h)
  ∧ (∀ h', WithEnvFrom envFroms opts h = Ok h' →
     Container.set_EnvFrom (Container.EnvFrom (container h)) (container h')
     = container h)
  ∧ (∀ h', WithPort ports opts h = Ok h' →
     Container.set_Ports (Container.Ports (container h)) (container h')
     = container h)
  ∧ (∀ h', WithVolumeMount volumeMounts opts h = Ok h' →
     Container.set_VolumeMounts (Container.VolumeMounts (container h)) (container h')
     = container h)
  ∧ (∀ h', WithResource resources opts h = Ok h' →
     Container.set_Resources (Container.Resources (container h)) (container h')
     = container h)
  ∧ (∀ h', WithSecurityContext sc opts h = Ok h' →
     Container.set_SecurityContext (Container.SecurityContext (container h))
       (container h') = container h)
  ∧ Container.set_Image (Container.Image (container h))
      (container (WithImage image opts h)) = container h
  ∧ Container.set_ImagePullPolicy (Container.ImagePullPolicy (container h))
      (container (WithImagePullPolicy pullPolicy opts h)) = container h.
Proof.
  destruct h as [c]. destruct c. simpl.
  unfold WithEnv, WithEnvFrom, WithPort, WithVolumeMount, WithResource,
    WithSecurityContext, WithImage, WithImagePullPolicy, and_then, or_panic.
  simpl.
  split_and!; try intros h'.
  all: repeat (case_match; simpl in *; simplify_eq; try done).
  all: try (destruct (range_loop _ _ _)).
  all: cbn; intros; by simplify_eq.
Qed.

End container_options.

Lemma unknown_option_leaves_container_witness :
  WithPort (Some [port_entry 80 9090]) ["replace"] (with_ports [port_entry 80 8080])
    = Ok (with_ports [port_entry 80 8080])
  ∧ @WithContainer (patch_takes_new _) (Some sidecar) ["replace"]
      nginx = Ok nginx.
Proof.
  pose proof (@unknown_option_leaves_container
    (patch_takes_new _) (patch_takes_new _) (patch_takes_new _)
    "replace" [] (with_ports [port_entry 80 8080]) None None
    (Some [port_entry 80 9090]) None None None None "" "") as Hports.
  pose proof (@unknown_option_leaves_container
    (patch_takes_new _) (patch_takes_new _) (patch_takes_new _)
    "replace" [] nginx None None None None None None
    (Some sidecar) "" "") as Hcontainer.
  split.
  - apply Hports; done.
  - apply Hcontainer; done.
Defined.

(** ** [WithContainer] with the Merge option *)

Lemma WithEnv_no_option envs h :
  WithEnv envs [] h = Ok (update (Container.set_Env (Some (elements envs))) h).
Proof. unfold WithEnv. by destruct (Container.Env (container h)). Qed.

Lemma WithEnvFrom_no_option envFroms h :
  WithEnvFrom envFroms [] h
  = Ok (update (Container.set_EnvFrom (Some (elements envFroms))) h).
Proof. unfold WithEnvFrom. by destruct (Container.EnvFrom (container h)). Qed.

Lemma WithPort_no_option ports h :
  WithPort ports [] h = Ok (update (Container.set_Ports (Some (elements ports))) h).
Proof. unfold WithPort. by destruct (Container.Ports (container h)). Qed.

Lemma WithVolumeMount_no_option volumeMounts h :
  WithVolumeMount volumeMounts [] h
  = Ok (update (Container.set_VolumeMounts (Some (elements volumeMounts))) h).
Proof. unfold WithVolumeMount. by destruct (Container.VolumeMounts (container h)). Qed.

Section with_container.
Context `{!StrategicMerge Container.t}.

Lemma WithContainer_merge_token (new : Container.t) (h : ContainerBuilderDefault) :
  WithContainer (Some new) [Merge] h =
    match strategic_merge (container h) (Some new) with
    | inl err => Panic err
    | inr patched =>
        Ok (mkContainerBuilder
          (Container.mk (Container.Name patched) (Container.Image patched)
             (Container.ImagePullPolicy patched)
             (foldl append_if_absent
                (Some (elements (Container.Env (container h))))
                (elements (Container.Env new)))
             (foldl append_if_absent
                (Some (elements (Container.EnvFrom (container h))))
                (elements (Container.EnvFrom new)))
             (Some (reconcile same_port
                (elements (Container.Ports (container h)))
                (elements (Container.Ports new))))
             (Some (reconcile same_mount
                (elements (Container.VolumeMounts (container h)))
                (elements (Container.VolumeMounts new))))
             (Container.Resources patched)
             (Container.SecurityContext patched)))
    end.
Proof.
  unfold WithContainer.
  change (IsOverwrite [Merge]) with false.
  change (IsOverwriteIfDefaultValue [Merge]) with false.
  change (IsMerge [Merge]) with true. cbn [andb].
  unfold MergeK8s. destruct (strategic_merge (container h) (Some new))
    as [err|patched]; [done|].
  cbn [or_panic mbind result_bind].
  rewrite WithEnv_no_option. cbn [mbind result_bind].
  rewrite (WithEnv_merge _ [Merge] _ (elements (Container.Env (container h))))
    by done. cbn [mbind result_bind].
  rewrite WithEnvFrom_no_option. cbn [mbind result_bind].
  rewrite (WithEnvFrom_merge _ [Merge] _
             (elements (Container.EnvFrom (container h)))) by done.
  cbn [mbind result_bind].
  rewrite WithPort_no_option. cbn [mbind result_bind].
  rewrite (WithPort_merge _ [Merge] _ (elements (Container.Ports (container h))))
    by done. cbn [mbind result_bind].
  rewrite WithVolumeMount_no_option. cbn [mbind result_bind].
  rewrite (WithVolumeMount_merge _ [Merge] _
             (elements (Container.VolumeMounts (container h)))) by done.
  done.
Qed.

(** X14.  [WithContainer] with the Merge option panics with the error of
    the strategic patch when there is one.  Otherwise it returns, and of
    the patched container it keeps the fields other than the four lists:
    the lists are rebuilt from the container the builder held and the new
    one, the environment by appending the absent entries, the ports and the
    volume mounts by identity.  A list that is nil in both containers comes
    out empty and non-nil. *)
Theorem WithContainer_merge_rebuilds_lists
    (new : Container.t) (opts : list WithOption) (h : ContainerBuilderDefault) :
  policy_of opts = Some DeepMerge →
  WithContainer (Some new) opts h =
    match strategic_merge (container h) (Some new) with
    | inl err => Panic err
    | inr patched =>
        Ok (mkContainerBuilder
          (Container.mk (Container.Name patched) (Container.Image patched)
             (Container.ImagePullPolicy patched)
             (foldl append_if_absent
                (Some (elements (Container.Env (container h))))
                (elements (Container.Env new)))
             (foldl append_if_absent
                (Some (elements (Container.EnvFrom (container h))))
                (elements (Container.EnvFrom new)))
             (Some (reconcile same_port
                (elements (Container.Ports (container h)))
                (elements (Container.Ports new))))
             (Some (reconcile same_mount
                (elements (Container.VolumeMounts (container h)))
                (elements (Container.VolumeMounts new))))
             (Container.Resources patched)
             (Container.SecurityContext patched)))
    end.
Proof.
  intros (Ho & Hd & Hm)%merge_policy_only.
  rewrite <- WithContainer_merge_token.
  unfold WithContainer. rewrite Ho, Hd, Hm.
  change (IsOverwrite [Merge]) with false.
  change (IsOverwriteIfDefaultValue [Merge]) with false.
  by change (IsMerge [Merge]) with true.
Qed.

(** The merge of one container of a pod template into the container of the
    same name: the first call stores [current], the second merges [new]
    into it. *)
Lemma merge_container_outcome (current new : Container.t) :
  merge_container current new =
    match strategic_merge current (Some new) with
    | inl err => Panic err
    | inr patched =>
        Ok (Container.mk (Container.Name patched) (Container.Image patched)
             (Container.ImagePullPolicy patched)
             (foldl append_if_absent (Some (elements (Container.Env current)))
                (elements (Container.Env new)))
             (foldl append_if_absent (Some (elements (Container.EnvFrom current)))
                (elements (Container.EnvFrom new)))
             (Some (reconcile same_port (elements (Container.Ports current))
                (elements (Container.Ports new))))
             (Some (reconcile same_mount (elements (Container.VolumeMounts current))
                (elements (Container.VolumeMounts new))))
             (Container.Resources patched)
             (Container.SecurityContext patched))
    end.
Proof.
  unfold merge_container.
  change (WithContainer (Some current) [] NewContainerBuilder)
    with (Ok (mkContainerBuilder current)).
  cbn [mbind result_bind]. rewrite WithContainer_merge_token.
  cbn [container]. by destruct (strategic_merge current (Some new)).
Qed.

End with_container.

Lemma WithContainer_merge_rebuilds_lists_witness :
  @WithContainer (patch_takes_new _) (Some sidecar) [Merge]
    (with_ports [port_entry 80 8080])
  = Ok (mkContainerBuilder
          (Container.mk "sidecar" "envoy:1.30" "" (Some []) (Some [])
             (Some [port_entry 80 9090; port_entry 443 8443]) (Some [])
             ResourceRequirements.zero None)).
Proof.
  exact (@WithContainer_merge_rebuilds_lists (patch_takes_new _) sidecar [Merge]
           (with_ports [port_entry 80 8080]) eq_refl).
Defined.

(** ** [WithInitContainers] and [WithContainers] with the Merge option *)

Lemma same_name_key x o :
  same_name x o = bool_decide (Container.Name x = Container.Name o).
Proof. done. Qed.

Section init_containers.
Context `{!StrategicMerge Container.t}.

(** One turn of the loop of [WithInitContainers]: the index is in range
    whenever it is not -1, so only the merge of the two containers can
    panic. *)
Lemma WithInitContainers_body_outcome s c dst :
  PodSpec.InitContainers s = Some dst →
  WithInitContainers_body s c =
    match list_find (λ o, same_name c o) dst with
    | None => Ok (PodSpec.set_InitContainers (Some (dst ++ [c])) s)
    | Some (k, current) =>
        merged ← merge_container current c;
        Ok (PodSpec.set_InitContainers (Some (<[k := merged]> dst)) s)
    end.
Proof.
  intros Hdst. unfold WithInitContainers_body, IndexOf. rewrite Hdst.
  rewrite IndexOf_from_list_find.
  unfold slice_get, slice_set, append.
  change (elements (Some dst)) with dst.
  destruct (list_find _ dst) as [[k current]|] eqn:Hfind.
  - apply list_find_Some in Hfind as (Hk & _ & _).
    pose proof (lookup_lt_Some _ _ _ Hk) as Hlt.
    rewrite (bool_decide_false (_ = -1)) by lia.
    rewrite (bool_decide_false (_ < 0)) by lia.
    rewrite Z.add_0_l, Nat2Z.id, Hk. cbn [mbind result_bind].
    destruct (merge_container current c) as [merged|msg]; [|done].
    cbn [mbind result_bind].
    by rewrite bool_decide_true by lia.
  - by rewrite bool_decide_true.
Qed.

Lemma set_InitContainers_twice v w s :
  PodSpec.set_InitContainers v (PodSpec.set_InitContainers w s)
  = PodSpec.set_InitContainers v s.
Proof. done. Qed.

Lemma WithInitContainers_loop new s dst :
  PodSpec.InitContainers s = Some dst →
  match range_loop WithInitContainers_body new s with
  | Ok s' =>
      ∃ merged, s' = PodSpec.set_InitContainers (Some merged) s
        ∧ (length dst ≤ length merged ≤ length dst + length new)%nat
  | Panic err =>
      ∃ current c, c ∈ new
        ∧ Container.Name current = Container.Name c
        ∧ strategic_merge current (Some c) = inl err
  end.
Proof.
  revert s dst. induction new as [|c new IH]; intros s dst Hdst.
  - simpl. exists dst. split; [|lia]. destruct s; simpl in *. by subst.
  - change (range_loop WithInitContainers_body (c :: new) s)
      with (WithInitContainers_body s c ≫= range_loop WithInitContainers_body new).
    rewrite (WithInitContainers_body_outcome s c dst Hdst).
    destruct (list_find _ dst) as [[k current]|] eqn:Hfind.
    + apply (list_find_same_Some Container.Name same_name same_name_key)
        in Hfind as (Hk & Hname & _).
      rewrite merge_container_outcome.
      destruct (strategic_merge current (Some c)) as [err|patched] eqn:Hpatch.
      * exists current, c. split_and!; [by left|done..].
      * cbn [mbind result_bind].
        match goal with |- context [<[k := ?m]> dst] => set (merged := m) end.
        specialize (IH (PodSpec.set_InitContainers (Some (<[k := merged]> dst)) s)
                      (<[k := merged]> dst) eq_refl).
        destruct (range_loop _ new _) as [s'|err].
        -- destruct IH as (final & -> & Hlen). exists final.
           split; [done|]. rewrite length_insert in Hlen. simpl. lia.
        -- destruct IH as (current' & c' & Hc' & Hnames & Herr).
           exists current', c'. split_and!; [by right|done..].
    + cbn [mbind result_bind].
      specialize (IH (PodSpec.set_InitContainers (Some (dst ++ [c])) s)
                    (dst ++ [c]) eq_refl).
      destruct (range_loop _ new _) as [s'|err].
      * destruct IH as (final & -> & Hlen). exists final.
        split; [done|]. rewrite length_app in Hlen. simpl in *. lia.
      * destruct IH as (current' & c' & Hc' & Hnames & Herr).
        exists current', c'. split_and!; [by right|done..].
Qed.

(** When the patch of two containers of one name succeeds and keeps the
    name, the names of the list evolve as in the reconciler. *)
Lemma WithInitContainers_loop_names new s dst dst2 :
  (∀ a b, Container.Name a = Container.Name b →
     ∃ p, strategic_merge a (Some b) = inr p
          ∧ Container.Name p = Container.Name a) →
  PodSpec.InitContainers s = Some dst →
  Container.Name <$> dst = Container.Name <$> dst2 →
  ∃ merged,
    range_loop WithInitContainers_body new s
      = Ok (PodSpec.set_InitContainers (Some merged) s)
    ∧ Container.Name <$> merged
      = Container.Name <$> reconcile same_name dst2 new.
Proof.
  intros Hpatch. revert s dst dst2.
  induction new as [|c new IH]; intros s dst dst2 Hdst Hnames.
  - simpl. exists dst. split; [|done]. destruct s; simpl in *. by subst.
  - change (range_loop WithInitContainers_body (c :: new) s)
      with (WithInitContainers_body s c ≫= range_loop WithInitContainers_body new).
    rewrite (WithInitContainers_body_outcome s c dst Hdst).
    change (reconcile same_name dst2 (c :: new))
      with (reconcile same_name (reconcile_entry same_name dst2 c) new).
    pose proof (reconcile_entry_keys Container.Name same_name same_name_key dst2 c)
      as Hentry.
    destruct (list_find _ dst) as [[k current]|] eqn:Hfind.
    + apply (list_find_same_Some Container.Name same_name same_name_key)
        in Hfind as (Hk & Hname & _).
      rewrite merge_container_outcome.
      destruct (Hpatch current c Hname) as (p & -> & Hp).
      cbn [mbind result_bind].
      match goal with |- context [<[k := ?m]> dst] => set (merged := m) end.
      destruct (IH (PodSpec.set_InitContainers (Some (<[k := merged]> dst)) s)
                  (<[k := merged]> dst) (reconcile_entry same_name dst2 c) eq_refl)
        as (final & Hloop & Hfinal).
      * rewrite Hentry, decide_True.
        -- rewrite <- Hnames, list_fmap_insert. apply list_insert_id.
           rewrite list_lookup_fmap, Hk. simpl. by rewrite Hp.
        -- rewrite <- Hnames, <- Hname. apply list_elem_of_fmap_2.
           by eapply list_elem_of_lookup_2.
      * exists final. by rewrite Hloop.
    + apply (list_find_same_None Container.Name same_name same_name_key) in Hfind.
      cbn [mbind result_bind].
      destruct (IH (PodSpec.set_InitContainers (Some (dst ++ [c])) s)
                  (dst ++ [c]) (reconcile_entry same_name dst2 c) eq_refl)
        as (final & Hloop & Hfinal).
      * rewrite Hentry, decide_False by (by rewrite <- Hnames).
        by rewrite fmap_app, Hnames.
      * exists final. by rewrite Hloop.
Qed.

Lemma WithInitContainers_merge_loop containers opts h dst :
  PodSpec.InitContainers (spec h) = Some dst →
  policy_of opts = Some DeepMerge →
  WithInitContainers containers opts h =
    s ← range_loop WithInitContainers_body (elements containers) (spec h);
    Ok (update_spec (λ _, s) h).
Proof.
  intros Hdst (Ho & Hd & Hm)%merge_policy_only.
  unfold WithInitContainers. rewrite Hdst, Ho, Hd, Hm.
  by destruct containers.
Qed.

(** X15.  [WithInitContainers] with the Merge option on a non-nil
    destination never fails on an index.  Either it returns: only the init
    containers of the template have changed, and their list is at least as
    long as before and at most as long as both lists together.  Or it
    panics with the error the strategic patch gave for a new container and
    the init container of the same name. *)
Theorem WithInitContainers_merge_outcome
    (containers : option (list Container.t)) (opts : list WithOption)
    (h : PodTemplateBuilderDefault) (dst : list Container.t) :
  PodSpec.InitContainers (spec h) = Some dst →
  policy_of opts = Some DeepMerge →
  match WithInitContainers containers opts h with
  | Ok h' =>
      ∃ merged,
        h' = update_spec (PodSpec.set_InitContainers (Some merged)) h
        ∧ (length dst ≤ length merged
           ≤ length dst + length (elements containers))%nat
  | Panic err =>
      ∃ current c, c ∈ elements containers
        ∧ Container.Name current = Container.Name c
        ∧ strategic_merge current (Some c) = inl err
  end.
Proof.
  intros Hdst Hpolicy.
  rewrite (WithInitContainers_merge_loop _ _ _ dst Hdst Hpolicy).
  pose proof (WithInitContainers_loop (elements containers) (spec h) dst Hdst)
    as Hloop.
  destruct (range_loop _ _ _) as [s|err]; [|done].
  destruct Hloop as (merged & -> & Hlen). by exists merged.
Qed.

(** X16.  When the strategic patch of two containers of one name succeeds
    and keeps that name, [WithInitContainers] with the Merge option returns
    and treats the names as identities: the names of the destination stay
    at their slots, the names of the result are those of either list, and
    a destination without two containers of one name gives a result
    without. *)
Theorem WithInitContainers_merge_names
    (containers : option (list Container.t)) (opts : list WithOption)
    (h : PodTemplateBuilderDefault) (dst : list Container.t) :
  (∀ a b, Container.Name a = Container.Name b →
     ∃ p, strategic_merge a (Some b) = inr p
          ∧ Container.Name p = Container.Name a) →
  PodSpec.InitContainers (spec h) = Some dst →
  policy_of opts = Some DeepMerge →
  ∃ merged,
    WithInitContainers containers opts h
      = Ok (update_spec (PodSpec.set_InitContainers (Some merged)) h)
    ∧ (Container.Name <$> dst) `prefix_of` (Container.Name <$> merged)
    ∧ (∀ name, name ∈ Container.Name <$> merged ↔
         name ∈ Container.Name <$> dst
         ∨ name ∈ Container.Name <$> elements containers)
    ∧ (NoDup (Container.Name <$> dst) → NoDup (Container.Name <$> merged)).
Proof.
  intros Hpatch Hdst Hpolicy.
  rewrite (WithInitContainers_merge_loop _ _ _ dst Hdst Hpolicy).
  destruct (WithInitContainers_loop_names (elements containers) (spec h) dst dst
              Hpatch Hdst eq_refl) as (merged & -> & Hnames).
  exists merged. rewrite Hnames. split_and!.
  - done.
  - apply reconcile_keys_prefix, same_name_key.
  - intros name. apply reconcile_keys_elem_of, same_name_key.
  - apply reconcile_keys_NoDup, same_name_key.
Qed.

(** X17.  New init containers whose names are new to the destination and
    differ from one another are appended in their order, whatever the
    strategic patch does: no container is patched. *)
Theorem WithInitContainers_merge_appends_new_names
    (new : list Container.t) (opts : list WithOption)
    (h : PodTemplateBuilderDefault) (dst : list Container.t) :
  PodSpec.InitContainers (spec h) = Some dst →
  policy_of opts = Some DeepMerge →
  (∀ c, c ∈ new → Container.Name c ∉ Container.Name <$> dst) →
  NoDup (Container.Name <$> new) →
  WithInitContainers (Some new) opts h
  = Ok (update_spec (PodSpec.set_InitContainers (Some (dst ++ new))) h).
Proof.
  intros Hdst Hpolicy Hnew Hnodup.
  rewrite (WithInitContainers_merge_loop _ _ _ dst Hdst Hpolicy).
  change (elements (Some new)) with new.
  assert (∀ s l,
    PodSpec.InitContainers s = Some l →
    (∀ c, c ∈ new → Container.Name c ∉ Container.Name <$> l) →
    range_loop WithInitContainers_body new s
    = Ok (PodSpec.set_InitContainers (Some (l ++ new)) s)) as Hloop.
  { clear Hdst Hnew. induction new as [|c new IH]; intros s l Hl Hfresh.
    - simpl. rewrite app_nil_r. destruct s; simpl in *. by subst.
    - change (range_loop WithInitContainers_body (c :: new) s)
        with (WithInitContainers_body s c ≫= range_loop WithInitContainers_body new).
      rewrite (WithInitContainers_body_outcome s c l Hl).
      assert (list_find (λ o, same_name c o) l = None) as ->.
      { apply (list_find_same_None Container.Name same_name same_name_key).
        apply Hfresh. by left. }
      cbn [mbind result_bind].
      rewrite fmap_cons in Hnodup. apply NoDup_cons in Hnodup as [Hc Hnodup].
      rewrite (IH Hnodup (PodSpec.set_InitContainers (Some (l ++ [c])) s)
                 (l ++ [c]) eq_refl).
      + by rewrite set_InitContainers_twice, <- app_assoc.
      + intros c' Hc'. rewrite fmap_app. intros [Hin|Hin]%elem_of_app.
        * apply (Hfresh c'); [by right|done].
        * apply list_elem_of_singleton in Hin. apply Hc. rewrite <- Hin.
          by apply list_elem_of_fmap_2. }
  by rewrite (Hloop (spec h) dst Hdst Hnew).
Qed.

(** X18.  [WithContainers] with the Merge option looks the name of a new
    container up among the init containers.  New containers whose names no
    init container has are all appended, a container of the same name in
    the destination notwithstanding; and a first new container whose
    name an init container has at a slot past the end of the destination
    makes the call panic on the index. *)
Theorem WithContainers_merge_by_init_containers
    (c : Container.t) (new : list Container.t) (opts : list WithOption)
    (h : PodTemplateBuilderDefault) (dst : list Container.t) :
  PodSpec.Containers (spec h) = Some dst →
  policy_of opts = Some DeepMerge →
  ((∀ c', c' ∈ new →
      Container.Name c'
        ∉ Container.Name <$> elements (PodSpec.InitContainers (spec h))) →
   WithContainers (Some new) opts h
   = Ok (update_spec (PodSpec.set_Containers (Some (dst ++ new))) h))
  ∧ (Z.of_nat (length dst)
       ≤ IndexOf (PodSpec.InitContainers (spec h)) (same_name c) →
     WithContainers (Some (c :: new)) opts h = Panic index_panic).
Proof.
  intros Hdst Hpolicy. split.
  - by apply WithContainers_merge_appends.
  - intros Hindex. apply merge_policy_only in Hpolicy as (Ho & Hd & Hm).
    unfold WithContainers. rewrite Hdst, Ho, Hd, Hm.
    cbn [and_then mbind result_bind copy_unless_nil].
    change (elements (Some (c :: new))) with (c :: new).
    change (range_loop WithContainers_body (c :: new) (spec h))
      with (WithContainers_body (spec h) c ≫= range_loop WithContainers_body new).
    unfold WithContainers_body.
    rewrite bool_decide_false by lia.
    unfold slice_get. rewrite Hdst. change (elements (Some dst)) with dst.
    rewrite bool_decide_false by lia.
    rewrite lookup_ge_None_2 by lia. done.
Qed.

End init_containers.

Lemma WithInitContainers_merge_outcome_witness :
  match @WithInitContainers (patch_takes_new _)
          (Some [init_container "setup"; init_container "migrate"]) [Merge]
          (with_init_containers [init_container "setup"]) with
  | Ok h' =>
      ∃ merged,
        h' = update_spec (PodSpec.set_InitContainers (Some merged))
               (with_init_containers [init_container "setup"])
        ∧ (1 ≤ length merged ≤ 1 + 2)%nat
  | Panic err =>
      ∃ current c,
        c ∈ [init_container "setup"; init_container "migrate"]
        ∧ Container.Name current = Container.Name c
        ∧ patch_takes_new _ current (Some c) = inl err
  end.
Proof.
  exact (@WithInitContainers_merge_outcome (patch_takes_new _)
    (Some [init_container "setup"; init_container "migrate"]) [Merge]
    (with_init_containers [init_container "setup"]) [init_container "setup"]
    eq_refl eq_refl).
Defined.

Lemma WithInitContainers_merge_names_witness :
  ∃ merged,
    @WithInitContainers (patch_takes_new _)
      (Some [init_container "setup"; init_container "migrate"]) [Merge]
      (with_init_containers [init_container "setup"])
    = Ok (update_spec (PodSpec.set_InitContainers (Some merged))
            (with_init_containers [init_container "setup"]))
    ∧ ["setup"] `prefix_of` (Container.Name <$> merged)
    ∧ (∀ name, name ∈ Container.Name <$> merged ↔
         name ∈ ["setup"] ∨ name ∈ ["setup"; "migrate"])
    ∧ (NoDup ["setup"] → NoDup (Container.Name <$> merged)).
Proof.
  apply (@WithInitContainers_merge_names (patch_takes_new _)
    (Some [init_container "setup"; init_container "migrate"]) [Merge]
    (with_init_containers [init_container "setup"]) [init_container "setup"]).
  - intros a b Hname. exists b. by split.
  - reflexivity.
  - reflexivity.
Defined.

Lemma WithInitContainers_merge_appends_new_names_witness :
  @WithInitContainers (patch_takes_new _)
    (Some [init_container "migrate"; init_container "warm"]) [Merge]
    (with_init_containers [init_container "setup"])
  = Ok (with_init_containers
          [init_container "setup"; init_container "migrate"; init_container "warm"]).
Proof.
  apply (@WithInitContainers_merge_appends_new_names (patch_takes_new _)
    [init_container "migrate"; init_container "warm"] [Merge]
    (with_init_containers [init_container "setup"]) [init_container "setup"]).
  - reflexivity.
  - reflexivity.
  - intros c Hc Hin. apply list_elem_of_singleton in Hin.
    apply elem_of_cons in Hc as [->|Hc]; [discriminate|].
    apply list_elem_of_singleton in Hc as ->. discriminate.
  - apply NoDup_cons. split.
    + intros Hin. apply list_elem_of_singleton in Hin. discriminate.
    + apply NoDup_singleton.
Defined.

Lemma WithContainers_merge_by_init_containers_witness :
  @WithContainers (patch_takes_new _) (Some [app]) [Merge] (with_containers [app])
    = Ok (with_containers [app; app])
  ∧ @WithContainers (patch_takes_new _) (Some [app]) [Merge]
      (update_spec (PodSpec.set_InitContainers
                      (Some [init_container "setup"; init_container "app"]))
         (with_containers [app]))
    = Panic index_panic.
Proof.
  split.
  - apply (@WithContainers_merge_by_init_containers (patch_takes_new _)
             app [app] [Merge] (with_containers [app]) [app] eq_refl eq_refl).
    intros c' _ Hin. by apply elem_of_nil in Hin.
  - apply (@WithContainers_merge_by_init_containers (patch_takes_new _)
             app [] [Merge]
             (update_spec (PodSpec.set_InitContainers
                             (Some [init_container "setup"; init_container "app"]))
                (with_containers [app])) [app] eq_refl eq_refl).
    vm_compute. discriminate.
Defined.

(** ** [Build] on the builders the recording methods make *)

Lemma recorded_invariant h :
  recorded h →
  i h = Ingress.zero
  ∧ Forall (λ o, Name o ≠ "" ∧ MethodByName (Name o) = None) (operations h).
Proof.
  induction 1 as [|h ? ? _ [Hi Hops]|h ? ? _ [Hi Hops]|h ? ? _ [Hi Hops]
                  |h ? ? _ [Hi Hops]|h ? ? _ [Hi Hops]].
  - split; [done|]. apply Forall_nil_2.
  - split; [done|]. apply Forall_app. split; [done|].
    by apply Forall_singleton.
  - split; [done|]. apply Forall_app. split; [done|].
    by apply Forall_singleton.
  - split; [done|]. apply Forall_app. split; [done|].
    by apply Forall_singleton.
  - split; [done|]. apply Forall_app. split; [done|].
    by apply Forall_singleton.
  - split; [done|]. apply Forall_app. split; [done|].
    by apply Forall_singleton.
Qed.

Section build_of_recorded.
Variable Call : method → list any → IngressBuilderDefault
                → result (IngressBuilderDefault * list returned).

(** X19.  On a builder made by the recording methods, [Build] returns only
    when nothing was recorded, and then it returns the zero ingress and
    leaves a new builder.  Once a method has recorded an operation [Build]
    panics at the first one, where [IsZero] meets the zero [Value] that
    [MethodByName] gives for the unexported name; no method is called, and
    the ingress and the log stay as they were. *)
Theorem Build_of_recorded (h : IngressBuilderDefault) :
  recorded h →
  i h = Ingress.zero
  ∧ Build Call h =
      match operations h with
      | [] => Returned NewIngressBuilder (Some Ingress.zero) None
      | _ :: _ => Panicked h IsZero_on_zero_Value
      end.
Proof.
  intros [Hi Hops]%recorded_invariant. split; [done|].
  unfold Build. destruct (operations h) as [|o ops] eqn:Hlog.
  - simpl. by rewrite Hi.
  - apply Forall_cons in Hops as [[Hname Hmethod] _]. simpl.
    by rewrite bool_decide_true, Hmethod.
Qed.

End build_of_recorded.

Lemma Build_of_recorded_witness :
  i labelled_in_namespace = Ingress.zero
  ∧ Build call_nothing labelled_in_namespace
    = Panicked labelled_in_namespace IsZero_on_zero_Value.
Proof.
  apply (Build_of_recorded call_nothing labelled_in_namespace).
  apply recorded_WithNamespace, recorded_WithLabels, recorded_new.
Defined.

(** ** Maps of strings: what the Merge option keeps *)

Lemma mergo_Merge_idempotent dst src :
  mergo_Merge (mergo_Merge dst src) src = mergo_Merge dst src.
Proof.
  apply map_eq. intros k. rewrite !lookup_mergo_Merge.
  destruct (dst !! k) as [v|], (src !! k) as [w|]; simpl; try done.
  - case_bool_decide; simpl; [|by rewrite bool_decide_false].
    by destruct (bool_decide (w = "")).
  - by destruct (bool_decide (w = "")).
Qed.

Lemma dom_mergo_Merge (dst src : gmap string string) :
  dom (mergo_Merge dst src) = dom dst ∪ dom src.
Proof.
  apply set_eq. intros k. rewrite elem_of_union, !elem_of_dom.
  rewrite lookup_mergo_Merge. unfold is_Some.
  destruct (dst !! k) as [v|], (src !! k) as [w|]; simpl;
    try case_bool_decide; split; eauto; intros [[? ?]|[? ?]]; eauto.
Qed.

(** X20.  [WithAnnotations] and [WithNodeSelector] with the Merge option on
    a non-nil destination never panic and never drop a key: the keys of the
    result are those of the destination and of the new map together, a
    value of the destination other than the empty string is kept, a nil
    new map changes nothing, and repeating the call changes nothing. *)
Theorem map_setters_merge_keep_destination
    (new : option (gmap string string)) (opts : list WithOption)
    (h : PodTemplateBuilderDefault) (annotations selector : gmap string string) :
  PodTemplateSpec.Annotations (podTemplate h) = Some annotations →
  PodSpec.NodeSelector (spec h) = Some selector →
  policy_of opts = Some DeepMerge →
  (∃ merged h',
     WithAnnotations new opts h = Ok h'
     ∧ h' = update_template (PodTemplateSpec.set_Annotations (Some merged)) h
     ∧ dom merged = dom annotations ∪ dom (default ∅ new)
     ∧ (∀ k v, annotations !! k = Some v → v ≠ "" → merged !! k = Some v)
     ∧ (new = None → h' = h)
     ∧ WithAnnotations new opts h' = Ok h')
  ∧ (∃ merged h',
     WithNodeSelector new opts h = Ok h'
     ∧ h' = update_spec (PodSpec.set_NodeSelector (Some merged)) h
     ∧ dom merged = dom selector ∪ dom (default ∅ new)
     ∧ (∀ k v, selector !! k = Some v → v ≠ "" → merged !! k = Some v)
     ∧ (new = None → h' = h)
     ∧ WithNodeSelector new opts h' = Ok h').
Proof.
  intros Hannotations Hselector Hpolicy.
  pose proof Hpolicy as (Ho & Hd & Hm)%merge_policy_only.
  set (merge_into := λ dst : gmap string string,
         match new with Some src => mergo_Merge dst src | None => dst end).
  assert (∀ dst, dom (merge_into dst) = dom dst ∪ dom (default ∅ new)) as Hdom.
  { intros dst. unfold merge_into. destruct new as [src|]; simpl.
    - apply dom_mergo_Merge.
    - by rewrite dom_empty_L, union_empty_r_L. }
  assert (∀ dst k v, dst !! k = Some v → v ≠ "" → merge_into dst !! k = Some v)
    as Hkept.
  { intros dst k v Hk Hv. unfold merge_into. destruct new as [src|]; [|done].
    rewrite lookup_mergo_Merge, Hk. simpl.
    destruct (src !! k); [|done]. by rewrite bool_decide_false. }
  assert (∀ dst, merge_into (merge_into dst) = merge_into dst) as Hagain.
  { intros dst. unfold merge_into. destruct new as [src|]; [|done].
    apply mergo_Merge_idempotent. }
  split.
  - exists (merge_into annotations),
      (update_template
         (PodTemplateSpec.set_Annotations (Some (merge_into annotations))) h).
    split_and!; [|done|apply Hdom|apply Hkept| |].
    + unfold WithAnnotations, with_string_map. rewrite Hannotations, Ho, Hd, Hm.
      simpl. unfold merge_into. destruct new; [done|].
      destruct h as [[labels ? s]]. simpl in *. by subst.
    + intros Hnew. unfold merge_into. rewrite Hnew.
      destruct h as [[labels ? s]]. simpl in *. by subst.
    + unfold WithAnnotations, with_string_map. simpl. rewrite Ho, Hd, Hm. simpl.
      specialize (Hagain annotations). unfold merge_into in *.
      destruct new as [src|]; [|done].
      unfold update_template. simpl. by rewrite Hagain.
  - exists (merge_into selector),
      (update_spec (PodSpec.set_NodeSelector (Some (merge_into selector))) h).
    split_and!; [|done|apply Hdom|apply Hkept| |].
    + unfold WithNodeSelector, with_string_map. rewrite Hselector, Ho, Hd, Hm.
      simpl. unfold merge_into. destruct new; [done|].
      destruct h as [[labels ? s]]. destruct s. unfold spec in *. simpl in *.
      by subst.
    + intros Hnew. unfold merge_into. rewrite Hnew.
      destruct h as [[labels ? s]]. destruct s. unfold spec in *.
      simpl in *. by subst.
    + unfold WithNodeSelector, with_string_map. simpl. rewrite Ho, Hd, Hm. simpl.
      specialize (Hagain selector). unfold merge_into in *.
      destruct new as [src|]; [|done].
      unfold update_spec, update_template. simpl. by rewrite Hagain.
Qed.

Lemma map_setters_merge_keep_destination_witness :
  (∃ merged h',
     WithAnnotations (Some labels_x2_y3) [Merge] (annotated labels_x1) = Ok h'
     ∧ h' = update_template (PodTemplateSpec.set_Annotations (Some merged))
              (annotated labels_x1)
     ∧ dom merged = dom labels_x1 ∪ dom labels_x2_y3
     ∧ (∀ k v, labels_x1 !! k = Some v → v ≠ "" → merged !! k = Some v)
     ∧ (Some labels_x2_y3 = None → h' = annotated labels_x1)
     ∧ WithAnnotations (Some labels_x2_y3) [Merge] h' = Ok h')
  ∧ (∃ merged h',
     WithNodeSelector (Some labels_x2_y3) [Merge] (annotated labels_x1) = Ok h'
     ∧ h' = update_spec (PodSpec.set_NodeSelector (Some merged))
              (annotated labels_x1)
     ∧ dom merged = dom labels_x1 ∪ dom labels_x2_y3
     ∧ (∀ k v, labels_x1 !! k = Some v → v ≠ "" → merged !! k = Some v)
     ∧ (Some labels_x2_y3 = None → h' = annotated labels_x1)
     ∧ WithNodeSelector (Some labels_x2_y3) [Merge] h' = Ok h').
Proof.
  exact (map_setters_merge_keep_destination (Some labels_x2_y3) [Merge]
           (annotated labels_x1) labels_x1 labels_x1 eq_refl eq_refl eq_refl).
Defined.

(** ** What [WithImagePullSecrets] stores *)

(** X21.  [WithImagePullSecrets] never reads its argument and never stores
    a pull secret: when it returns, the builder is as it was or has lost
    its pull secrets; it panics only under [OverwriteIfDefaultValue] on a
    non-nil list. *)
Theorem WithImagePullSecrets_never_stores
    (ips : option (list LocalObjectReference.t)) (opts : list WithOption)
    (h : PodTemplateBuilderDefault) :
  WithImagePullSecrets ips opts h = WithImagePullSecrets None opts h
  ∧ match WithImagePullSecrets ips opts h with
    | Ok h' =>
        h' = h ∨ h' = update_spec (PodSpec.set_ImagePullSecrets None) h
    | Panic msg =>
        msg = Elem_on_slice
        ∧ PodSpec.ImagePullSecrets (spec h) ≠ None
        ∧ policy_of opts = Some ReplaceIfUnset
    end.
Proof.
  split; [done|].
  unfold WithImagePullSecrets.
  destruct (PodSpec.ImagePullSecrets (spec h)) as [dst|] eqn:Hdst; [|by right].
  destruct (IsOverwrite opts) eqn:Ho; [by right|].
  destruct (IsOverwriteIfDefaultValue opts) eqn:Hd; simpl.
  - split_and!; [done..|]. unfold policy_of. by rewrite Ho, Hd.
  - destruct (IsMerge opts); [|by left]. left.
    destruct h as [[labels annotations s]]. destruct s.
    unfold spec in *. simpl in *. by subst.
Qed.

(** ** The termination grace period *)

(** X22.  [WithTerminationGracePeriodSeconds] leaves the field set after
    any call, a period of 0 included.  So a later call with
    [OverwriteIfDefaultValue] changes nothing, whereas a later call with no
    option, [Overwrite] or [Merge] stores its own period. *)
Theorem WithTerminationGracePeriodSeconds_first_or_last
    (nb1 nb2 : Z) (opts1 opts2 : list WithOption)
    (h : PodTemplateBuilderDefault) :
  PodSpec.TerminationGracePeriodSeconds
    (spec (WithTerminationGracePeriodSeconds nb1 opts1 h)) ≠ None
  ∧ (policy_of opts2 = Some ReplaceIfUnset →
     WithTerminationGracePeriodSeconds nb2 opts2
       (WithTerminationGracePeriodSeconds nb1 opts1 h)
     = WithTerminationGracePeriodSeconds nb1 opts1 h)
  ∧ (policy_of opts2 = Some Replace ∨ policy_of opts2 = Some DeepMerge →
     PodSpec.TerminationGracePeriodSeconds
       (spec (WithTerminationGracePeriodSeconds nb2 opts2
                (WithTerminationGracePeriodSeconds nb1 opts1 h)))
     = Some nb2).
Proof.
  assert (PodSpec.TerminationGracePeriodSeconds
            (spec (WithTerminationGracePeriodSeconds nb1 opts1 h)) ≠ None) as Hset.
  { unfold WithTerminationGracePeriodSeconds.
    destruct (IsOverwrite opts1 || IsMerge opts1) eqn:Hopts; simpl; [done|].
    case_bool_decide; simpl; done. }
  split_and!; [done| |].
  - intros (Ho & Hd & Hm)%replace_if_unset_only.
    unfold WithTerminationGracePeriodSeconds at 1. rewrite Ho, Hm. simpl.
    by rewrite bool_decide_false.
  - rewrite policy_of_Replace, policy_of_DeepMerge. intros Hopts.
    unfold WithTerminationGracePeriodSeconds at 1.
    by destruct Hopts as [-> | ->]; rewrite ?orb_true_r.
Qed.

Section records_if_unset.
Context `{!StrategicMerge ResourceRequirements.t}.
Context `{!StrategicMerge SecurityContext.t}.
Context `{!StrategicMerge Container.t}.

(** X23.  With [OverwriteIfDefaultValue] the setters of a nested record do
    not panic, unlike the list setters, and store the new value exactly
    when the destination is unset: [WithResource] when the resources are
    the zero value, [WithSecurityContext] when the context is nil or points
    to the zero value, [WithContainer] when the whole container is the zero
    value.  A nil security context is stored like any other. *)
Theorem record_setters_if_unset
    (opts : list WithOption) (h : ContainerBuilderDefault)
    (resources : ResourceRequirements.t) (sc : option SecurityContext.t)
    (new : Container.t) :
  policy_of opts = Some ReplaceIfUnset →
  WithResource (Some resources) opts h =
    Ok (if bool_decide (Container.Resources (container h) = ResourceRequirements.zero)
        then update (Container.set_Resources resources) h else h)
  ∧ WithSecurityContext sc opts h =
    Ok (if bool_decide (Container.SecurityContext (container h) = None
                   ∨ Container.SecurityContext (container h)
                     = Some SecurityContext.zero)
        then update (Container.set_SecurityContext sc) h else h)
  ∧ WithContainer (Some new) opts h =
    Ok (if bool_decide (container h = Container.zero)
        then mkContainerBuilder new else h).
Proof.
  intros (Ho & Hd & Hm)%replace_if_unset_only.
  unfold WithResource, WithSecurityContext, WithContainer, IsZero.
  rewrite Ho, Hd, Hm. simpl. split_and!.
  - by case_bool_decide.
  - destruct (Container.SecurityContext (container h)) as [current|]; [|done].
    repeat case_bool_decide; try done; exfalso; subst; intuition congruence.
  - by case_bool_decide.
Qed.

End records_if_unset.

Lemma record_setters_if_unset_witness :
  @WithSecurityContext (patch_takes_new _) None [OverwriteIfDefaultValue] secured
    = Ok secured
  ∧ @WithContainer (patch_takes_new _) (Some sidecar) [OverwriteIfDefaultValue]
      NewContainerBuilder
    = Ok (mkContainerBuilder sidecar).
Proof.
  split.
  - apply (@record_setters_if_unset (patch_takes_new _) (patch_takes_new _)
             (patch_takes_new _) [OverwriteIfDefaultValue] secured
             ResourceRequirements.zero None sidecar eq_refl).
  - apply (@record_setters_if_unset (patch_takes_new _) (patch_takes_new _)
             (patch_takes_new _) [OverwriteIfDefaultValue] NewContainerBuilder
             ResourceRequirements.zero None sidecar eq_refl).
Defined.

Lemma WithTerminationGracePeriodSeconds_first_or_last_witness :
  WithTerminationGracePeriodSeconds 30 [OverwriteIfDefaultValue]
    (WithTerminationGracePeriodSeconds 0 [] NewPodTemplateBuilder)
    = with_grace_period 0
  ∧ PodSpec.TerminationGracePeriodSeconds
      (spec (WithTerminationGracePeriodSeconds 30 [Merge]
               (WithTerminationGracePeriodSeconds 0 [] NewPodTemplateBuilder)))
    = Some 30.
Proof.
  pose proof (WithTerminationGracePeriodSeconds_first_or_last
                0 30 [] [OverwriteIfDefaultValue] NewPodTemplateBuilder)
    as (_ & Hfirst & _).
  pose proof (WithTerminationGracePeriodSeconds_first_or_last
                0 30 [] [Merge] NewPodTemplateBuilder) as (_ & _ & Hlast).
  split.
  - apply Hfirst. reflexivity.
  - apply Hlast. right. reflexivity.
Defined.
